(** * Moderated-comments store of the moderator front end

    A shallow embedding of the reducer and selectors that keep, per article
    and per category, the lists of moderated comment ids
    ([moderatedCommentsReducer], [getModeratedComments]), together with the
    part of Immutable.js ([List], [Map], [updateIn], [fromJS]) they rely on. *)

From Stdlib Require Import ZArith Lia DecimalString.
From stdpp Require Import gmap strings list fin_maps.

Local Open Scope string_scope.
Local Open Scope list_scope.

(** ** Exceptions *)

Inductive error := TypeError.

Inductive result (A : Type) : Type :=
  | Ok (a : A)
  | Throw (e : error).
Arguments Ok {A} a.
Arguments Throw {A} e.

(** Sequencing: an exception skips what follows. *)
#[global] Instance result_bind : MBind result := λ A B k r,
  match r with
  | Ok a => k a
  | Throw e => Throw e
  end.

(** ** Immutable.js *)

Module Immutable.

(** [List.size]. *)
Definition size (l : list string) : Z := Z.of_nat (length l).

(** [List.findIndex(pred)]: index of the first element satisfying [pred],
    [-1] when there is none. *)
Fixpoint findIndexFrom (pred : string → bool) (l : list string) (i : Z) : Z :=
  match l with
  | [] => (-1)%Z
  | x :: l' => if pred x then i else findIndexFrom pred l' (i + 1)%Z
  end.

Definition findIndex (pred : string → bool) (l : list string) : Z :=
  findIndexFrom pred l 0%Z.

(** [wrapIndex] on a number: a negative index counts back from the end. *)
Definition wrapIndex (l : list string) (index : Z) : Z :=
  if (index <? 0)%Z then (size l + index)%Z else index.

(** [List.has(index)]. *)
Definition has (l : list string) (index : Z) : bool :=
  let i := wrapIndex l index in
  (0 <=? i)%Z && (i <? size l)%Z.

(** [List.delete(index)]:
    [!this.has(index) ? this : ... this.splice(index, 1)]; the element at
    the wrapped index is dropped, so [delete(-1)] drops the last one. *)
Definition delete (l : list string) (index : Z) : list string :=
  if has l index then
    let i := Z.to_nat (wrapIndex l index) in
    take i l ++ drop (S i) l
  else l.

(** [List.push(value)]. *)
Definition push (l : list string) (value : string) : list string :=
  l ++ [value].

(** [wrapIndex] on a string key: the key is an index only when it is the
    decimal spelling of a number below [2^32 - 1]; anything else is [NaN]. *)
Definition arrayIndex (key : string) : option N :=
  match NilEmpty.uint_of_string key with
  | Some u =>
      let n := N.of_uint u in
      if String.eqb (NilEmpty.string_of_uint (N.to_uint n)) key
         && (n <? 4294967295)%N
      then Some n else None
  | None => None
  end.

(** [List.get(key)] with a string key. *)
Definition get (l : list string) (key : string) : option string :=
  n ← arrayIndex key;
  if (n <? N.of_nat (length l))%N then l !! N.to_nat n else None.

End Immutable.

(** ** The store *)

(** [Map<string, List<string>>]: the buckets of one scope. *)
Abbreviation ModerationState := (gmap string (list string)).

(** [Map<string, Map<string, List<string>>>]: scope key to buckets. *)
Abbreviation ScopeMap := (gmap string (gmap string (list string))).

(** Modelled from the spec: the type [IModeratedComments] of the data
    service is declared outside the sources at hand; the spec gives it as
    the seven ordered id lists
    [{approved, highlighted, rejected, deferred, flagged, batched, automated}]. *)
Record IModeratedComments := {
  approved : list string;
  highlighted : list string;
  rejected : list string;
  deferred : list string;
  flagged : list string;
  batched : list string;
  automated : list string;
}.

(** [fromJS(moderatedComments)]: the plain object becomes a [Map], each
    array a [List]. *)
Definition fromJS (mc : IModeratedComments) : ModerationState :=
  <["approved" := approved mc]>
  (<["highlighted" := highlighted mc]>
  (<["rejected" := rejected mc]>
  (<["deferred" := deferred mc]>
  (<["flagged" := flagged mc]>
  (<["batched" := batched mc]>
  (<["automated" := automated mc]> ∅)))))).

Record IModeratedCommentsState := {
  isLoading : bool;
  articles : ScopeMap;
  categories : ScopeMap;
}.

Definition initialState : IModeratedCommentsState :=
  {| isLoading := true; articles := ∅; categories := ∅ |}.

(** [ACTION_PLURAL[moderationAction]].  [None] stands for what is no bucket
    key: [undefined] for a name that is not in the table, and the members
    inherited from [Object.prototype] (for a name such as [toString]). *)
Definition ACTION_PLURAL (moderationAction : string) : option string :=
  if String.eqb moderationAction "highlight" then Some "highlighted"
  else if String.eqb moderationAction "approve" then Some "approved"
  else if String.eqb moderationAction "defer" then Some "deferred"
  else if String.eqb moderationAction "reject" then Some "rejected"
  else if String.eqb moderationAction "tag" then Some "tagged"
  else None.

(** [map.updateIn([k1, k2], updater)] for the two updaters of the reducer,
    [moderated => moderated.delete(...)] and [item => item.push(commentId)].
    Both call a method of their argument.  When the key path is not set
    (the scope is missing, the bucket is missing, or the bucket key is
    [undefined]) Immutable hands [undefined] to the updater, the method call
    throws a [TypeError] and nothing is written.  Otherwise the value at
    the path is replaced by the updater's result. *)
Definition updateIn (m : ScopeMap) (k1 : string) (k2 : option string)
    (method : list string → list string) : result ScopeMap :=
  match m !! k1, k2 with
  | Some buckets, Some k =>
      match buckets !! k with
      | Some existing => Ok (<[k1 := <[k := method existing]> buckets]> m)
      | None => Throw TypeError
      end
  | _, _ => Throw TypeError
  end.

(** [map.updateIn([k1, k2, k3], item => item.push(commentId))] on a scope
    map.  The third key indexes a [List<string>]: what is found there is
    either nothing ([undefined.push]) or a string, which has no [push]
    method; the updater throws in both cases. *)
Definition updateIn3 (m : ScopeMap) (k1 k2 k3 : string) : result ScopeMap :=
  let existing :=
    buckets ← m !! k1; l ← buckets !! k2; Immutable.get l k3 in
  match existing with
  | Some _item => Throw TypeError
  | None => Throw TypeError
  end.

(** [moderated => moderated.delete(moderated.findIndex(item => item === commentId))] *)
Definition deleteComment (commentId : string) (moderated : list string) : list string :=
  Immutable.delete moderated
    (Immutable.findIndex (λ item, String.eqb item commentId) moderated).

(** [item => item.push(commentId)] *)
Definition pushComment (commentId : string) (item : list string) : list string :=
  Immutable.push item commentId.

Definition shouldRemoveFromList (currentModeration moderationAction : string) : bool :=
  negb (String.eqb currentModeration "batched") &&
  negb (String.eqb currentModeration "automated") &&
  ((String.eqb currentModeration "highlighted" && String.eqb moderationAction "highlight") ||
   (negb (String.eqb currentModeration "highlighted") &&
    negb (String.eqb moderationAction "highlight"))).

(** Body of [commentIds.forEach] in the article handler, as a function of
    [newState.articles].  The label [case 'reject' || 'defer'] is the value
    of ['reject' || 'defer'], that is ['reject'].  In the ['reject'] and
    [default] branches the result of [updateIn] is not assigned: the call
    can throw but its value is dropped. *)
Definition articleStep (articleId moderationAction currentModeration : string)
    (arts : ScopeMap) (commentId : string) : result ScopeMap :=
  arts1 ← (if shouldRemoveFromList currentModeration moderationAction
           then updateIn arts articleId (Some currentModeration) (deleteComment commentId)
           else Ok arts);
  if String.eqb moderationAction "reject" then
    _ ← updateIn arts1 articleId (ACTION_PLURAL moderationAction) (pushComment commentId);
    Ok arts1
  else if String.eqb moderationAction "highlight" then
    if String.eqb currentModeration "highlighted" && String.eqb moderationAction "highlight"
    then Ok arts1
    else
      arts2 ← updateIn arts1 articleId (ACTION_PLURAL moderationAction) (pushComment commentId);
      updateIn3 arts2 "articles" articleId "approved"
  else if String.eqb moderationAction "reset" then Ok arts1
  else
    _ ← updateIn arts1 articleId (ACTION_PLURAL moderationAction) (pushComment commentId);
    Ok arts1.

(** Body of [commentIds.forEach] in the category handler. *)
Definition categoryStep (category moderationAction currentModeration : string)
    (cats : ScopeMap) (commentId : string) : result ScopeMap :=
  cats1 ← (if shouldRemoveFromList currentModeration moderationAction
           then updateIn cats category (Some currentModeration) (deleteComment commentId)
           else Ok cats);
  if String.eqb moderationAction "reject" then
    updateIn cats1 category (ACTION_PLURAL moderationAction) (pushComment commentId)
  else if String.eqb moderationAction "highlight" then
    if String.eqb currentModeration "highlighted" && String.eqb moderationAction "highlight"
    then Ok cats1
    else
      cats2 ← updateIn cats1 category (ACTION_PLURAL moderationAction) (pushComment commentId);
      updateIn cats2 category (Some "approved") (pushComment commentId)
  else if String.eqb moderationAction "reset" then Ok cats1
  else
    updateIn cats1 category (ACTION_PLURAL moderationAction) (pushComment commentId).

(** [commentIds.forEach(...)]: the first exception leaves the loop. *)
Fixpoint forEach (step : ScopeMap → string → result ScopeMap)
    (commentIds : list string) (m : ScopeMap) : result ScopeMap :=
  match commentIds with
  | [] => Ok m
  | commentId :: rest => m1 ← step m commentId; forEach step rest m1
  end.

(** The actions handled by the reducer, with their payloads. *)
Inductive Action :=
  | loadModeratedCommentsStart
  | loadModeratedCommentsForArticleComplete
      (articleId : string) (moderatedComments : IModeratedComments)
  | loadModeratedCommentsForCategoryComplete
      (category : string) (moderatedComments : IModeratedComments)
  | setCommentsModerationForArticlesAction
      (articleId : string) (commentIds : list string)
      (moderationAction currentModeration : string)
  | setCommentsModerationForCategoriesAction
      (category : string) (commentIds : list string)
      (moderationAction currentModeration : string).

Definition moderatedCommentsReducer (state : IModeratedCommentsState) (a : Action)
    : result IModeratedCommentsState :=
  match a with
  | loadModeratedCommentsStart =>
      Ok {| isLoading := true;
            articles := articles state;
            categories := categories state |}
  | loadModeratedCommentsForArticleComplete articleId moderatedComments =>
      Ok {| isLoading := false;
            articles := <[articleId := fromJS moderatedComments]> (articles state);
            categories := categories state |}
  | loadModeratedCommentsForCategoryComplete category moderatedComments =>
      Ok {| isLoading := false;
            articles := articles state;
            categories := <[category := fromJS moderatedComments]> (categories state) |}
  | setCommentsModerationForArticlesAction articleId commentIds moderationAction currentModeration =>
      arts ← forEach (articleStep articleId moderationAction currentModeration)
                     commentIds (articles state);
      Ok {| isLoading := isLoading state;
            articles := arts;
            categories := categories state |}
  | setCommentsModerationForCategoriesAction category commentIds moderationAction currentModeration =>
      cats ← forEach (categoryStep category moderationAction currentModeration)
                     commentIds (categories state);
      Ok {| isLoading := isLoading state;
            articles := articles state;
            categories := cats |}
  end.

(** Redux [dispatch]: the store takes the reducer's state; when the reducer
    throws, the exception goes to the caller and the store keeps its state. *)
Definition dispatch (state : IModeratedCommentsState) (a : Action)
    : IModeratedCommentsState :=
  match moderatedCommentsReducer state a with
  | Ok state' => state'
  | Throw _ => state
  end.

(** The operations under the names of the specification. *)
Definition startLoad : Action := loadModeratedCommentsStart.

Definition completeLoad (scope : string) (isCategory : bool)
    (buckets : IModeratedComments) : Action :=
  if isCategory then loadModeratedCommentsForCategoryComplete scope buckets
  else loadModeratedCommentsForArticleComplete scope buckets.

Definition transition (scope : string) (isCategory : bool) (commentIds : list string)
    (action previousStatus : string) : Action :=
  if isCategory
  then setCommentsModerationForCategoriesAction scope commentIds action previousStatus
  else setCommentsModerationForArticlesAction scope commentIds action previousStatus.

(** The scope map of one kind, and one bucket of one scope
    ([None]: the scope or the bucket is not there). *)
Definition scopes (isCategory : bool) (state : IModeratedCommentsState) : ScopeMap :=
  if isCategory then categories state else articles state.

Definition mbucket (m : ScopeMap) (scope name : string) : option (list string) :=
  buckets ← m !! scope; buckets !! name.

Definition bucket (state : IModeratedCommentsState) (isCategory : bool)
    (scope name : string) : option (list string) :=
  mbucket (scopes isCategory state) scope name.

(** ** Selectors *)

Record IAppState := {
  (** [state.scenes.comments.moderatedComments.moderatedComments];
      [None] when the record is not there. *)
  moderatedComments : option IModeratedCommentsState;
}.

Definition getRecord (state : IAppState) : option IModeratedCommentsState :=
  moderatedComments state.

(** [stateRecord && stateRecord.isLoading] *)
Definition getIsLoading (state : IAppState) : option bool :=
  isLoading <$> getRecord state.

Definition getModeratedCommentsForArticle (state : IAppState) : option ScopeMap :=
  articles <$> getRecord state.

Definition getModeratedCommentsForCategory (state : IAppState) : option ScopeMap :=
  categories <$> getRecord state.

(** The literal returned for a scope that is not in the store. *)
Definition emptyModeratedComments : ModerationState :=
  <["approved" := []]>
  (<["highlighted" := []]>
  (<["rejected" := []]>
  (<["deferred" := []]>
  (<["flagged" := []]>
  (<["batched" := []]>
  (<["automated" := []]> ∅)))))).

Section Selectors.

(** The route parameters and [isArticleContext] come from the routes
    module, outside the sources at hand. *)
Variable IModeratedCommentsPathParams : Type.
Variable isArticleContext : IModeratedCommentsPathParams → bool.
Variable contextId : IModeratedCommentsPathParams → string.

Definition getModeratedComments (state : IAppState)
    (params : IModeratedCommentsPathParams) : ModerationState :=
  let found :=
    if isArticleContext params then
      arts ← getModeratedCommentsForArticle state; arts !! contextId params
    else
      cats ← getModeratedCommentsForCategory state; cats !! contextId params
  in
  match found with
  | Some buckets => buckets
  | None => emptyModeratedComments
  end.

End Selectors.

(** The seven bucket names. *)
Definition bucketNames : gset string :=
  {[ "approved"; "highlighted"; "rejected"; "deferred"; "flagged"; "batched"; "automated" ]}.

Definition noBuckets : IModeratedComments :=
  {| approved := []; highlighted := []; rejected := []; deferred := [];
     flagged := []; batched := []; automated := [] |}.


(** ** Runs of the store *)

(** The store after a sequence of dispatched actions. *)
Definition run (acts : list Action) : IModeratedCommentsState :=
  foldl dispatch initialState acts.

(** One entry of a batch: a comment, the status it had, the action taken. *)
Record BatchItem := {
  itemId : string;
  itemAction : string;
  itemPrevious : string;
}.

(** The transitions of a batch, dispatched one after the other. *)
Definition applyBatch (scope : string) (isCategory : bool) (items : list BatchItem)
    (state : IModeratedCommentsState) : IModeratedCommentsState :=
  foldl (λ st it, dispatch st
           (transition scope isCategory [itemId it] (itemAction it) (itemPrevious it)))
        state items.

(** ** The two loop bodies as sequences of [updateIn] calls

    Both loop bodies are a removal, when [shouldRemoveFromList] says so,
    followed by the calls of the [switch] branch taken.  Writing the calls
    down as data lets one argument serve both handlers. *)

Inductive Call :=
  | Delete (name : string)               (* assigned [updateIn] with [delete] *)
  | Push (name : option string)          (* assigned [updateIn] with [push] *)
  | PushDropped (name : option string)   (* [updateIn] with [push], value dropped *)
  | PushDeep.                            (* the three-key [updateIn] *)

Definition runCall (scope commentId : string) (c : Call) (m : ScopeMap)
    : result ScopeMap :=
  match c with
  | Delete name => updateIn m scope (Some name) (deleteComment commentId)
  | Push name => updateIn m scope name (pushComment commentId)
  | PushDropped name => _ ← updateIn m scope name (pushComment commentId); Ok m
  | PushDeep => updateIn3 m "articles" scope "approved"
  end.

Fixpoint runCalls (scope commentId : string) (cs : list Call) (m : ScopeMap)
    : result ScopeMap :=
  match cs with
  | [] => Ok m
  | c :: cs' => m1 ← runCall scope commentId c m; runCalls scope commentId cs' m1
  end.

Definition removalCalls (moderationAction currentModeration : string) : list Call :=
  if shouldRemoveFromList currentModeration moderationAction
  then [Delete currentModeration] else [].

Definition articleCalls (moderationAction currentModeration : string) : list Call :=
  removalCalls moderationAction currentModeration ++
  (if String.eqb moderationAction "reject" then [PushDropped (ACTION_PLURAL moderationAction)]
   else if String.eqb moderationAction "highlight" then
     if String.eqb currentModeration "highlighted" then []
     else [Push (ACTION_PLURAL moderationAction); PushDeep]
   else if String.eqb moderationAction "reset" then []
   else [PushDropped (ACTION_PLURAL moderationAction)]).

Definition categoryCalls (moderationAction currentModeration : string) : list Call :=
  removalCalls moderationAction currentModeration ++
  (if String.eqb moderationAction "reject" then [Push (ACTION_PLURAL moderationAction)]
   else if String.eqb moderationAction "highlight" then
     if String.eqb currentModeration "highlighted" then []
     else [Push (ACTION_PLURAL moderationAction); Push (Some "approved")]
   else if String.eqb moderationAction "reset" then []
   else [Push (ACTION_PLURAL moderationAction)]).

Definition callsOf (isCategory : bool) : string → string → list Call :=
  if isCategory then categoryCalls else articleCalls.

Definition stepOf (isCategory : bool)
    : string → string → string → ScopeMap → string → result ScopeMap :=
  if isCategory then categoryStep else articleStep.

(** [{...state, articles: m}] or [{...state, categories: m}]. *)
Definition withScopes (isCategory : bool) (state : IModeratedCommentsState)
    (m : ScopeMap) : IModeratedCommentsState :=
  if isCategory
  then {| isLoading := isLoading state; articles := articles state; categories := m |}
  else {| isLoading := isLoading state; articles := m; categories := categories state |}.

(** What a call that went through did to the bucket [name] of its scope. *)
Definition callEffect (commentId : string) (c : Call) (name : string)
    (l : list string) : list string :=
  match c with
  | Delete k => if decide (name = k) then deleteComment commentId l else l
  | Push (Some k) => if decide (name = k) then pushComment commentId l else l
  | _ => l
  end.

Definition callsEffect (commentId : string) (cs : list Call) (name : string)
    (l : list string) : list string :=
  foldl (λ l' c, callEffect commentId c name l') l cs.

(** Every scope of the map has exactly the seven buckets. *)
Definition sevenBuckets (m : ScopeMap) : Prop :=
  ∀ scope buckets, m !! scope = Some buckets → dom buckets = bucketNames.


(** ** Batches, scope map by scope map *)

(** One transition of a batch on the scope map, as [dispatch] leaves it:
    the map is kept when the loop body throws. *)
Definition stepMap (isCategory : bool) (scope : string) (it : BatchItem)
    (m : ScopeMap) : ScopeMap :=
  match stepOf isCategory scope (itemAction it) (itemPrevious it) m (itemId it) with
  | Ok m' => m'
  | Throw _ => m
  end.

(** The same buckets exist in both maps. *)
Definition sameShape (m m' : ScopeMap) : Prop :=
  ∀ scope name, is_Some (mbucket m scope name) ↔ is_Some (mbucket m' scope name).

(** Whether a call goes through depends on the buckets that exist only. *)
Definition callOk (m : ScopeMap) (scope : string) (c : Call) : bool :=
  match c with
  | Delete k => bool_decide (is_Some (mbucket m scope k))
  | Push (Some k) | PushDropped (Some k) => bool_decide (is_Some (mbucket m scope k))
  | Push None | PushDropped None | PushDeep => false
  end.

(** The calls of an item that take effect: all of them, or none when one
    of them throws. *)
Definition effectiveCalls (isCategory : bool) (scope : string) (m : ScopeMap)
    (it : BatchItem) : list Call :=
  let cs := callsOf isCategory (itemAction it) (itemPrevious it) in
  if forallb (callOk m scope) cs then cs else [].

(** The ids a call takes out of, and puts into, the bucket [name]. *)
Definition removedBy (commentId name : string) (c : Call) : list string :=
  match c with
  | Delete k => if decide (name = k) then [commentId] else []
  | _ => []
  end.

Definition addedBy (commentId name : string) (c : Call) : list string :=
  match c with
  | Push (Some k) => if decide (name = k) then [commentId] else []
  | _ => []
  end.

Definition itemRemoved (isCategory : bool) (scope : string) (m : ScopeMap)
    (name : string) (it : BatchItem) : list string :=
  effectiveCalls isCategory scope m it ≫= removedBy (itemId it) name.

Definition itemAdded (isCategory : bool) (scope : string) (m : ScopeMap)
    (name : string) (it : BatchItem) : list string :=
  effectiveCalls isCategory scope m it ≫= addedBy (itemId it) name.

(** Every id of the batch that the removal step applies to is in the bucket
    of its previous status. *)
Definition present (scope : string) (items : list BatchItem) (m : ScopeMap) : Prop :=
  ∀ it, it ∈ items →
    shouldRemoveFromList (itemPrevious it) (itemAction it) = true →
    ∃ l, mbucket m scope (itemPrevious it) = Some l ∧ itemId it ∈ l.

(** ** Sample states *)

(** The initial store after one load of [scope]. *)
Definition loaded (isCategory : bool) (scope : string) (mc : IModeratedComments)
    : IModeratedCommentsState :=
  dispatch initialState (completeLoad scope isCategory mc).

(** Buckets with the given approved, highlighted, rejected and flagged
    ids, the other buckets empty. *)
Definition sampleBuckets (a h r f : list string) : IModeratedComments :=
  {| approved := a; highlighted := h; rejected := r; deferred := [];
     flagged := f; batched := []; automated := [] |}.

(** A category with one rejected, one deferred and one approved comment,
    and a batch that approves the first, highlights the second and rejects
    the third. *)
Definition batchStore : IModeratedCommentsState :=
  loaded true "k"
    {| approved := ["c3"]; highlighted := []; rejected := ["c1"];
       deferred := ["c2"]; flagged := []; batched := []; automated := [] |}.

Definition sampleBatch : list BatchItem :=
  [ {| itemId := "c1"; itemAction := "approve"; itemPrevious := "rejected" |};
    {| itemId := "c2"; itemAction := "highlight"; itemPrevious := "deferred" |};
    {| itemId := "c3"; itemAction := "reject"; itemPrevious := "approved" |} ].

(** ** Loading *)

Section Loading.

(** The data service, [fetchModeratedCommentIdsForArticle] and
    [fetchModeratedCommentIdsForCategory], is outside the sources at hand;
    the functions stand for the outcome of the awaited calls, [None] when
    the promise is rejected. *)
Variable fetchModeratedCommentIdsForArticle
  : string → list string → option IModeratedComments.
Variable fetchModeratedCommentIdsForCategory
  : string → list string → option IModeratedComments.

(** [loadModeratedCommentsForArticle]: the action it dispatches at once,
    and the action it dispatches once the awaited call of the data service
    has returned.  When that call fails the exception leaves the function
    and there is no second action. *)
Definition loadModeratedCommentsForArticle (articleId : string) (sort : list string)
    : Action * option Action :=
  (loadModeratedCommentsStart,
   moderatedComments ← fetchModeratedCommentIdsForArticle articleId sort;
   Some (loadModeratedCommentsForArticleComplete articleId moderatedComments)).

(** [loadModeratedCommentsForCategory], likewise. *)
Definition loadModeratedCommentsForCategory (category : string) (sort : list string)
    : Action * option Action :=
  (loadModeratedCommentsStart,
   moderatedComments ← fetchModeratedCommentIdsForCategory category sort;
   Some (loadModeratedCommentsForCategoryComplete category moderatedComments)).

End Loading.

(** The store after a load.  The load function awaits after its first
    dispatch and awaits the data service: the actions [between], dispatched
    by other callers in the meantime, reach the store between its two
    dispatches. *)
Definition afterLoad (load : Action * option Action) (between : list Action)
    (state : IModeratedCommentsState) : IModeratedCommentsState :=
  let started := foldl dispatch (dispatch state load.1) between in
  match load.2 with
  | Some complete => dispatch started complete
  | None => started
  end.

(** The loading flag after a sequence of actions, read off the actions
    alone: a load start raises it, a completed load lowers it, a
    transition leaves it. *)
Definition loadingAfter (flag : bool) (acts : list Action) : bool :=
  foldl (λ b a, match a with
                | loadModeratedCommentsStart => true
                | loadModeratedCommentsForArticleComplete _ _
                | loadModeratedCommentsForCategoryComplete _ _ => false
                | _ => b
                end) flag acts.

(** The five actions of the moderation buttons. *)
Definition moderationActions : list string :=
  ["highlight"; "approve"; "defer"; "reject"; "reset"].

(** The bucket names, as a list. *)
Definition bucketNameList : list string :=
  ["approved"; "highlighted"; "rejected"; "deferred"; "flagged"; "batched"; "automated"].

(** ** The comment detail view *)

(** The fields of a comment that [getActiveButtons] reads; [ICommentModel]
    itself is declared in the models module.  [isAccepted] is compared
    with [true] and with [false], [None] is any other value; the other two
    fields are tested for truth. *)
Record ICommentModel := {
  isAccepted : option bool;
  isHighlighted : bool;
  isDeferred : bool;
}.

(** [getActiveButtons(comment)]; the outer [None] is [null]. *)
Definition getActiveButtons (comment : option ICommentModel) : option (list string) :=
  match comment with
  | None => None
  | Some comment =>
      let activeButtons : list string := [] in
      let activeButtons :=
        if bool_decide (isAccepted comment = Some true) then ["approve"]
        else activeButtons in
      let activeButtons :=
        if bool_decide (isAccepted comment = Some false) then ["reject"]
        else activeButtons in
      let activeButtons :=
        if isHighlighted comment then Immutable.push activeButtons "highlight"
        else activeButtons in
      let activeButtons :=
        if isDeferred comment then ["defer"] else activeButtons in
      Some activeButtons
  end.

(** The [commentAction] that [moderateComment] computes and carries out:
    [activeButtons.includes(action) ? 'reset' : action].  Without a comment
    [getActiveButtons] answers [null] and the call of [includes] throws. *)
Definition commentAction (comment : option ICommentModel) (action : string)
    : result string :=
  match getActiveButtons comment with
  | None => Throw TypeError
  | Some activeButtons =>
      Ok (if bool_decide (action ∈ activeButtons) then "reset" else action)
  end.

(** * Properties of the embedded code *)

(** ** Lists: [findIndex] followed by [delete] *)

Section ListFacts.
Implicit Types (l : list string) (id x : string) (pred : string → bool).

Lemma findIndexFrom_absent pred l i :
  Forall (λ x, pred x = false) l →
  Immutable.findIndexFrom pred l i = (-1)%Z.
Proof.
  intros H. revert i. induction H as [|x l Hx _ IH]; intros i; simpl.
  - reflexivity.
  - rewrite Hx. apply IH.
Qed.

Lemma findIndexFrom_first pred l1 x l2 i :
  Forall (λ y, pred y = false) l1 → pred x = true →
  Immutable.findIndexFrom pred (l1 ++ x :: l2) i = (i + Z.of_nat (length l1))%Z.
Proof.
  intros H Hx. revert i. induction H as [|y l1 Hy _ IH]; intros i; simpl.
  - rewrite Hx. lia.
  - rewrite Hy, IH. lia.
Qed.

Lemma delete_at l1 x l2 :
  Immutable.delete (l1 ++ x :: l2) (Z.of_nat (length l1)) = l1 ++ l2.
Proof.
  unfold Immutable.delete, Immutable.has, Immutable.wrapIndex, Immutable.size.
  rewrite length_app. simpl.
  destruct (Z.ltb_spec (Z.of_nat (length l1)) 0); [lia|].
  destruct (Z.leb_spec 0 (Z.of_nat (length l1))); [|lia].
  destruct (Z.ltb_spec (Z.of_nat (length l1)) (Z.of_nat (length l1 + S (length l2))));
    [|lia].
  simpl. rewrite Nat2Z.id.
  rewrite take_app_length.
  replace (S (length l1)) with (length (l1 ++ [x])) by (rewrite length_app; simpl; lia).
  replace (l1 ++ x :: l2) with ((l1 ++ [x]) ++ l2) by (rewrite <- app_assoc; reflexivity).
  rewrite drop_app_length. reflexivity.
Qed.

Lemma delete_minus_one l x : Immutable.delete (l ++ [x]) (-1) = l.
Proof.
  unfold Immutable.delete, Immutable.has, Immutable.wrapIndex, Immutable.size.
  rewrite length_app. simpl.
  destruct (Z.leb_spec 0 (Z.of_nat (length l + 1) + -1)); [|lia].
  destruct (Z.ltb_spec (Z.of_nat (length l + 1) + -1) (Z.of_nat (length l + 1)));
    [|lia].
  simpl.
  replace (Z.to_nat (Z.of_nat (length l + 1) + -1)) with (length l) by lia.
  rewrite take_app_length.
  replace (S (length l)) with (length (l ++ [x])) by (rewrite length_app; simpl; lia).
  rewrite drop_all. apply app_nil_r.
Qed.

Lemma delete_minus_one_nil : Immutable.delete [] (-1) = [].
Proof. reflexivity. Qed.

Lemma eqb_absent id l :
  id ∉ l → Forall (λ item, String.eqb item id = false) l.
Proof.
  intros H. apply Forall_forall. intros y Hy.
  apply String.eqb_neq. intros ->. contradiction.
Qed.

(** When the id is in the list, its first occurrence is taken out. *)
Lemma deleteComment_present id l1 l2 :
  id ∉ l1 → deleteComment id (l1 ++ id :: l2) = l1 ++ l2.
Proof.
  intros H. unfold deleteComment, Immutable.findIndex.
  rewrite findIndexFrom_first by (auto using eqb_absent, String.eqb_refl).
  rewrite Z.add_0_l. apply delete_at.
Qed.

(** When the id is not in the list, [findIndex] answers [-1] and
    [delete(-1)] takes out the last element. *)
Lemma deleteComment_absent id l :
  id ∉ l → deleteComment id l = removelast l.
Proof.
  intros H. unfold deleteComment, Immutable.findIndex.
  rewrite findIndexFrom_absent by auto using eqb_absent.
  destruct l as [|y l'] using rev_ind.
  - reflexivity.
  - rewrite delete_minus_one, removelast_last. reflexivity.
Qed.

Lemma delete_sublist l i : Immutable.delete l i `sublist_of` l.
Proof.
  unfold Immutable.delete. destruct (Immutable.has l i); [|reflexivity].
  set (n := Z.to_nat _).
  rewrite <- (take_drop n l) at 3.
  apply sublist_app; [reflexivity|].
  replace (S n) with (n + 1) by lia. rewrite <- drop_drop. apply sublist_drop.
Qed.

Lemma deleteComment_sublist id l : deleteComment id l `sublist_of` l.
Proof. apply delete_sublist. Qed.

Lemma elem_of_split_first id l :
  id ∈ l → ∃ l1 l2, l = l1 ++ id :: l2 ∧ id ∉ l1.
Proof.
  induction l as [|y l IH]; intros H.
  - by apply elem_of_nil in H.
  - destruct (decide (y = id)) as [->|Hne].
    + exists [], l. split; [done|]. apply not_elem_of_nil.
    + apply elem_of_cons in H as [->|H]; [done|].
      destruct (IH H) as (l1 & l2 & -> & Hl1).
      exists (y :: l1), l2. split; [done|].
      rewrite elem_of_cons. intros [->|?]; done.
Qed.

End ListFacts.

(** ** Scope maps: what [updateIn] does to a bucket *)

Section UpdateIn.
Implicit Types (m : ScopeMap) (f : list string → list string).

Lemma bind_Ok_r {A} (r : result A) : (a ← r; Ok a) = r.
Proof. by destruct r. Qed.

Lemma updateIn_Some m k1 k f l :
  mbucket m k1 k = Some l →
  updateIn m k1 (Some k) f = Ok (alter (alter f k) k1 m).
Proof.
  unfold mbucket, updateIn. intros H.
  destruct (m !! k1) as [buckets|] eqn:Hm; simpl in H; [|done].
  rewrite H. f_equal. apply map_eq. intros i.
  destruct (decide (i = k1)) as [->|Hne].
  - rewrite lookup_insert_eq, lookup_alter_eq, Hm. simpl. f_equal.
    apply map_eq. intros j. destruct (decide (j = k)) as [->|Hne].
    + by rewrite lookup_insert_eq, lookup_alter_eq, H.
    + by rewrite lookup_insert_ne, lookup_alter_ne.
  - by rewrite lookup_insert_ne, lookup_alter_ne.
Qed.

Lemma updateIn_None m k1 k f :
  mbucket m k1 k = None → updateIn m k1 (Some k) f = Throw TypeError.
Proof.
  unfold mbucket, updateIn. intros H.
  destruct (m !! k1) as [buckets|] eqn:Hm; simpl in H; [|done].
  by rewrite H.
Qed.

Lemma updateIn_undefined m k1 f : updateIn m k1 None f = Throw TypeError.
Proof. unfold updateIn. by destruct (m !! k1). Qed.

Lemma updateIn_Ok m k1 k2 f m' :
  updateIn m k1 k2 f = Ok m' →
  ∃ k l, k2 = Some k ∧ mbucket m k1 k = Some l ∧ m' = alter (alter f k) k1 m.
Proof.
  destruct k2 as [k|]; [|by rewrite updateIn_undefined].
  destruct (mbucket m k1 k) as [l|] eqn:H.
  - rewrite (updateIn_Some _ _ _ _ _ H). intros [= <-]. eauto.
  - by rewrite updateIn_None.
Qed.

Lemma updateIn3_throws m k1 k2 k3 : updateIn3 m k1 k2 k3 = Throw TypeError.
Proof. unfold updateIn3. by case_match. Qed.

Lemma mbucket_alter m k1 k f scope name :
  mbucket (alter (alter f k) k1 m) scope name =
  if decide (scope = k1 ∧ name = k) then f <$> mbucket m scope name
  else mbucket m scope name.
Proof.
  unfold mbucket. destruct (decide (scope = k1)) as [->|Hne].
  - rewrite lookup_alter_eq. destruct (m !! k1) as [buckets|]; simpl.
    + destruct (decide (name = k)) as [->|Hne].
      * rewrite lookup_alter_eq. by rewrite decide_True.
      * rewrite lookup_alter_ne by done. rewrite decide_False; [done|]. by intros [].
    + by case_decide.
  - rewrite lookup_alter_ne by done. rewrite decide_False; [done|]. by intros [].
Qed.

End UpdateIn.

(** ** The loop bodies are their call sequences *)

Section Calls.
Implicit Types (m : ScopeMap) (cs : list Call).

Lemma runCalls_app scope id cs1 cs2 m :
  runCalls scope id (cs1 ++ cs2) m =
  (m1 ← runCalls scope id cs1 m; runCalls scope id cs2 m1).
Proof.
  revert m. induction cs1 as [|c cs1 IH]; intros m; simpl; [done|].
  destruct (runCall scope id c m); simpl; [apply IH|done].
Qed.

Lemma runCalls_removal scope id action previous m :
  runCalls scope id (removalCalls action previous) m =
  (if shouldRemoveFromList previous action
   then updateIn m scope (Some previous) (deleteComment id)
   else Ok m).
Proof.
  unfold removalCalls. destruct (shouldRemoveFromList previous action); simpl; [|done].
  apply bind_Ok_r.
Qed.

Lemma articleStep_calls articleId action previous m id :
  articleStep articleId action previous m id =
  runCalls articleId id (articleCalls action previous) m.
Proof.
  unfold articleStep, articleCalls.
  rewrite runCalls_app, runCalls_removal.
  destruct (if shouldRemoveFromList previous action then _ else _) as [m1|];
    simpl; [|done].
  destruct (String.eqb action "reject"); simpl.
  { by destruct (updateIn m1 _ _ _). }
  destruct (String.eqb action "highlight"); simpl.
  { destruct (String.eqb previous "highlighted"); simpl; [done|].
    destruct (updateIn m1 _ _ _); simpl; [|done]. by rewrite !updateIn3_throws. }
  destruct (String.eqb action "reset"); simpl; [done|].
  by destruct (updateIn m1 _ _ _).
Qed.

Lemma categoryStep_calls category action previous m id :
  categoryStep category action previous m id =
  runCalls category id (categoryCalls action previous) m.
Proof.
  unfold categoryStep, categoryCalls.
  rewrite runCalls_app, runCalls_removal.
  destruct (if shouldRemoveFromList previous action then _ else _) as [m1|];
    simpl; [|done].
  destruct (String.eqb action "reject"); simpl.
  { by destruct (updateIn m1 _ _ _). }
  destruct (String.eqb action "highlight"); simpl.
  { destruct (String.eqb previous "highlighted"); simpl; [done|].
    destruct (updateIn m1 _ _ _); simpl; [|done]. by destruct (updateIn _ _ _ _). }
  destruct (String.eqb action "reset"); simpl; [done|].
  by destruct (updateIn m1 _ _ _).
Qed.

Lemma stepOf_calls isCategory scope action previous m id :
  stepOf isCategory scope action previous m id =
  runCalls scope id (callsOf isCategory action previous) m.
Proof.
  destruct isCategory; [apply categoryStep_calls|apply articleStep_calls].
Qed.

Lemma reducer_transition state scope isCategory ids action previous :
  moderatedCommentsReducer state (transition scope isCategory ids action previous) =
  (m ← forEach (stepOf isCategory scope action previous) ids (scopes isCategory state);
   Ok (withScopes isCategory state m)).
Proof. by destruct isCategory. Qed.

Lemma forEach_single step id m : forEach step [id] m = step m id.
Proof. simpl. apply bind_Ok_r. Qed.

Lemma bucket_withScopes isCategory state m c scope name :
  bucket (withScopes isCategory state m) c scope name =
  if decide (c = isCategory) then mbucket m scope name else bucket state c scope name.
Proof. by destruct isCategory, c. Qed.

Lemma isLoading_withScopes isCategory state m :
  isLoading (withScopes isCategory state m) = isLoading state.
Proof. by destruct isCategory. Qed.

Lemma withScopes_scopes isCategory state :
  withScopes isCategory state (scopes isCategory state) = state.
Proof. by destruct isCategory, state. Qed.

Lemma scopes_withScopes isCategory state m :
  scopes isCategory (withScopes isCategory state m) = m.
Proof. by destruct isCategory. Qed.


End Calls.

(** ** Effect of the calls on the buckets *)

Section Effects.
Implicit Types (m : ScopeMap) (cs : list Call) (c : Call).

Lemma runCall_Ok scope id c m m' :
  runCall scope id c m = Ok m' →
  ∀ sc name, mbucket m' sc name =
    if decide (sc = scope) then callEffect id c name <$> mbucket m sc name
    else mbucket m sc name.
Proof.
  intros H sc name. destruct c as [k|k|k|]; simpl in H.
  - apply updateIn_Ok in H as (k' & l & [= <-] & Hl & ->).
    rewrite mbucket_alter.
    destruct (decide (sc = scope)) as [->|Hsc];
      [destruct (decide (name = k)) as [->|Hn]|].
    + rewrite decide_True by done.
      destruct (mbucket m scope k); simpl; [|done]. by rewrite decide_True.
    + rewrite decide_False by (by intros []).
      destruct (mbucket m scope name); simpl; [|done]. by rewrite decide_False.
    + by rewrite decide_False by (by intros []).
  - apply updateIn_Ok in H as (k' & l & -> & Hl & ->).
    rewrite mbucket_alter.
    destruct (decide (sc = scope)) as [->|Hsc];
      [destruct (decide (name = k')) as [->|Hn]|].
    + rewrite decide_True by done.
      destruct (mbucket m scope k'); simpl; [|done]. by rewrite decide_True.
    + rewrite decide_False by (by intros []).
      destruct (mbucket m scope name); simpl; [|done]. by rewrite decide_False.
    + by rewrite decide_False by (by intros []).
  - destruct (updateIn m scope k _); simpl in H; [|done].
    injection H as <-. case_decide; [|done].
    by destruct (mbucket m sc name).
  - by rewrite updateIn3_throws in H.
Qed.

Lemma runCalls_Ok scope id cs m m' :
  runCalls scope id cs m = Ok m' →
  ∀ sc name, mbucket m' sc name =
    if decide (sc = scope) then callsEffect id cs name <$> mbucket m sc name
    else mbucket m sc name.
Proof.
  revert m. induction cs as [|c cs IH]; intros m H sc name; simpl in H.
  - injection H as <-. case_decide; [|done]. by destruct (mbucket m sc name).
  - destruct (runCall scope id c m) as [m1|] eqn:H1; simpl in H; [|done].
    rewrite (IH _ H), (runCall_Ok _ _ _ _ _ H1).
    case_decide; [|done]. by destruct (mbucket m sc name).
Qed.


End Effects.

(** ** Reading a scope that is not in the store *)

Lemma emptyModeratedComments_dom : dom emptyModeratedComments = bucketNames.
Proof.
  unfold emptyModeratedComments, bucketNames.
  rewrite !dom_insert_L, dom_empty_L. set_solver.
Qed.

Lemma emptyModeratedComments_lookup name :
  name ∈ bucketNames → emptyModeratedComments !! name = Some [].
Proof.
  unfold bucketNames, emptyModeratedComments. rewrite !elem_of_union, !elem_of_singleton.
  intros H. repeat (destruct H as [H | ->]); subst; reflexivity.
Qed.

(** C10.  For every store state and every scope key that is not in the
    scope map of its kind (articles or categories), [getModeratedComments]
    returns a collection that has exactly the seven named buckets, each of
    them the empty list.  The result is a collection in every case, also
    when the store record itself is missing. *)
Theorem getModeratedComments_absent_scope
    (Params : Type) (isArticleContext : Params → bool) (contextId : Params → string)
    (state : IAppState) (params : Params) :
  (∀ record, getRecord state = Some record →
     scopes (negb (isArticleContext params)) record !! contextId params = None) →
  let found := getModeratedComments Params isArticleContext contextId state params in
  dom found = bucketNames ∧ ∀ name, name ∈ bucketNames → found !! name = Some [].
Proof.
  intros Habsent found.
  assert (found = emptyModeratedComments) as ->.
  { unfold found, getModeratedComments, getModeratedCommentsForArticle,
      getModeratedCommentsForCategory.
    destruct (getRecord state) as [record|] eqn:Hrec.
    - specialize (Habsent record eq_refl).
      destruct (isArticleContext params); simpl in *; by rewrite Habsent.
    - by destruct (isArticleContext params). }
  split; [apply emptyModeratedComments_dom|apply emptyModeratedComments_lookup].
Qed.

Lemma getModeratedComments_absent_scope_witness :
  let state := {| moderatedComments := Some initialState |} in
  let found := getModeratedComments (bool * string) fst snd state (true, "a1") in
  dom found = bucketNames ∧ ∀ name, name ∈ bucketNames → found !! name = Some [].
Proof.
  apply (getModeratedComments_absent_scope (bool * string) fst snd
           {| moderatedComments := Some initialState |} (true, "a1")).
  intros record [= <-]. reflexivity.
Defined.

(** ** Only the seven buckets *)

Section SevenBuckets.

Lemma fromJS_dom mc : dom (fromJS mc) = bucketNames.
Proof.
  unfold fromJS, bucketNames. rewrite !dom_insert_L, dom_empty_L. set_solver.
Qed.

Lemma sevenBuckets_insert (m : ScopeMap) scope mc :
  sevenBuckets m → sevenBuckets (<[scope := fromJS mc]> m).
Proof.
  intros Hm sc buckets. rewrite lookup_insert. case_decide.
  - intros [= <-]. apply fromJS_dom.
  - apply Hm.
Qed.

Lemma sevenBuckets_alter (m : ScopeMap) scope k f :
  sevenBuckets m → sevenBuckets (alter (alter f k) scope m).
Proof.
  intros Hm sc buckets. rewrite lookup_alter. case_decide; [|apply Hm].
  subst sc. destruct (m !! scope) as [old|] eqn:Hold; simpl; [|done].
  intros [= <-]. rewrite dom_alter_L. by apply (Hm scope).
Qed.

Lemma runCall_sevenBuckets scope id c m m' :
  runCall scope id c m = Ok m' → sevenBuckets m → sevenBuckets m'.
Proof.
  destruct c as [k|k|k|]; simpl; intros H Hm.
  - apply updateIn_Ok in H as (? & ? & _ & _ & ->). by apply sevenBuckets_alter.
  - apply updateIn_Ok in H as (? & ? & _ & _ & ->). by apply sevenBuckets_alter.
  - destruct (updateIn m scope k _); simpl in H; [|done]. by injection H as <-.
  - by rewrite updateIn3_throws in H.
Qed.

Lemma runCalls_sevenBuckets scope id cs m m' :
  runCalls scope id cs m = Ok m' → sevenBuckets m → sevenBuckets m'.
Proof.
  revert m. induction cs as [|c cs IH]; simpl; intros m H Hm.
  - by injection H as <-.
  - destruct (runCall scope id c m) as [m1|] eqn:H1; simpl in H; [|done].
    eauto using runCall_sevenBuckets.
Qed.

Lemma forEach_sevenBuckets isCategory scope action previous ids m m' :
  forEach (stepOf isCategory scope action previous) ids m = Ok m' →
  sevenBuckets m → sevenBuckets m'.
Proof.
  revert m. induction ids as [|id ids IH]; simpl; intros m H Hm.
  - by injection H as <-.
  - destruct (stepOf _ _ _ _ m id) as [m1|] eqn:H1; simpl in H; [|done].
    rewrite stepOf_calls in H1. eauto using runCalls_sevenBuckets.
Qed.

Lemma reducer_sevenBuckets state a state' :
  moderatedCommentsReducer state a = Ok state' →
  sevenBuckets (articles state) ∧ sevenBuckets (categories state) →
  sevenBuckets (articles state') ∧ sevenBuckets (categories state').
Proof.
  intros H [Ha Hc]. destruct a as [|sc mc|sc mc|sc ids act prev|sc ids act prev];
    simpl in H.
  - by injection H as <-.
  - injection H as <-. simpl. auto using sevenBuckets_insert.
  - injection H as <-. simpl. auto using sevenBuckets_insert.
  - destruct (forEach _ ids _) as [m|] eqn:Hm; simpl in H; [|done].
    injection H as <-. simpl. split; [|done].
    by apply (forEach_sevenBuckets false) in Hm.
  - destruct (forEach _ ids _) as [m|] eqn:Hm; simpl in H; [|done].
    injection H as <-. simpl. split; [done|].
    by apply (forEach_sevenBuckets true) in Hm.
Qed.

Lemma dispatch_sevenBuckets state a :
  sevenBuckets (articles state) ∧ sevenBuckets (categories state) →
  sevenBuckets (articles (dispatch state a)) ∧
  sevenBuckets (categories (dispatch state a)).
Proof.
  intros H. unfold dispatch.
  destruct (moderatedCommentsReducer state a) eqn:Hr; [|done].
  eauto using reducer_sevenBuckets.
Qed.

Lemma foldl_sevenBuckets acts state :
  sevenBuckets (articles state) ∧ sevenBuckets (categories state) →
  sevenBuckets (articles (foldl dispatch state acts)) ∧
  sevenBuckets (categories (foldl dispatch state acts)).
Proof.
  revert state. induction acts as [|a acts IH]; simpl; intros state H; [done|].
  apply IH, dispatch_sevenBuckets, H.
Qed.

End SevenBuckets.

(** C7.  After every sequence of dispatched actions (load start, load
    complete for an article or a category, transitions for an article or a
    category, with any ids and any action and status strings) from the
    initial state, the collection kept for a scope has exactly the seven
    bucket names [approved], [highlighted], [rejected], [deferred],
    [flagged], [batched], [automated]: no action creates a bucket under
    another name. *)
Theorem run_only_seven_buckets (acts : list Action) (isCategory : bool)
    (scope : string) (buckets : ModerationState) :
  scopes isCategory (run acts) !! scope = Some buckets →
  dom buckets = bucketNames.
Proof.
  destruct (foldl_sevenBuckets acts initialState) as [Ha Hc].
  { split; intros sc b; simpl; by rewrite lookup_empty. }
  destruct isCategory; simpl; [apply Hc|apply Ha].
Qed.

Lemma run_only_seven_buckets_witness :
  dom (fromJS noBuckets) = bucketNames.
Proof.
  apply (run_only_seven_buckets
           [startLoad; completeLoad "a1" false noBuckets;
            transition "a1" false ["c1"] "tag" "flagged"] false "a1").
  vm_compute. reflexivity.
Defined.

(** ** Transitions that only remove *)

Section RemovalOnly.

(** A loop body that consists of the removal alone, run on a bucket that
    holds the id: the first occurrence goes, nothing else changes. *)
Lemma transition_removal_only isCategory scope id action previous state l1 l2 :
  callsOf isCategory action previous = [Delete previous] →
  bucket state isCategory scope previous = Some (l1 ++ id :: l2) →
  id ∉ l1 →
  ∃ state',
    moderatedCommentsReducer state
      (transition scope isCategory [id] action previous) = Ok state' ∧
    bucket state' isCategory scope previous = Some (l1 ++ l2) ∧
    (∀ c sc name, (c, sc, name) ≠ (isCategory, scope, previous) →
       bucket state' c sc name = bucket state c sc name) ∧
    isLoading state' = isLoading state.
Proof.
  intros Hcalls Hb Hl1.
  rewrite reducer_transition, forEach_single, stepOf_calls, Hcalls. simpl.
  unfold bucket in Hb. rewrite (updateIn_Some _ _ _ _ _ Hb). simpl.
  eexists. split; [reflexivity|]. split; [|split].
  - rewrite bucket_withScopes, decide_True by done.
    rewrite mbucket_alter, decide_True by done.
    rewrite Hb. simpl. by rewrite deleteComment_present.
  - intros c sc name Hne. rewrite bucket_withScopes.
    case_decide as Hc; [|done]. subst c.
    rewrite mbucket_alter, decide_False; [done|].
    intros [-> ->]. done.
  - apply isLoading_withScopes.
Qed.

(** A loop body without calls leaves the state as it is. *)
Lemma transition_no_calls isCategory scope id action previous state :
  callsOf isCategory action previous = [] →
  moderatedCommentsReducer state
    (transition scope isCategory [id] action previous) = Ok state.
Proof.
  intros Hcalls.
  rewrite reducer_transition, forEach_single, stepOf_calls, Hcalls. simpl.
  by rewrite withScopes_scopes.
Qed.

End RemovalOnly.

(** C1, as the code has it.  With action [highlight] and previous status
    [highlighted] the removal step runs and the insertion step does
    nothing: for either kind of scope, when the id is in the scope's
    [highlighted] bucket, the transition takes its first occurrence out of
    that bucket and leaves every other bucket of the store, and the loading
    flag, unchanged. *)
Theorem highlight_of_highlighted_removes (isCategory : bool) (scope id : string)
    (state : IModeratedCommentsState) (l1 l2 : list string) :
  bucket state isCategory scope "highlighted" = Some (l1 ++ id :: l2) →
  id ∉ l1 →
  ∃ state',
    moderatedCommentsReducer state
      (transition scope isCategory [id] "highlight" "highlighted") = Ok state' ∧
    bucket state' isCategory scope "highlighted" = Some (l1 ++ l2) ∧
    (∀ c sc name, (c, sc, name) ≠ (isCategory, scope, "highlighted") →
       bucket state' c sc name = bucket state c sc name) ∧
    isLoading state' = isLoading state.
Proof.
  apply transition_removal_only. by destruct isCategory.
Qed.

Lemma highlight_of_highlighted_removes_witness :
  let state := loaded true "k" (sampleBuckets ["c1"] ["c0"; "c1"] [] []) in
  ∃ state',
    moderatedCommentsReducer state
      (transition "k" true ["c1"] "highlight" "highlighted") = Ok state' ∧
    bucket state' true "k" "highlighted" = Some (["c0"] ++ []) ∧
    (∀ c sc name, (c, sc, name) ≠ (true, "k", "highlighted") →
       bucket state' c sc name = bucket state c sc name) ∧
    isLoading state' = isLoading state.
Proof.
  intros state.
  apply (highlight_of_highlighted_removes true "k" "c1" state ["c0"] []).
  - vm_compute. reflexivity.
  - compute_done.
Defined.

(** C1 as stated fails: highlighting an id that is in [highlighted] changes
    the state, the id leaves the bucket. *)
Lemma highlight_of_highlighted_changes_state :
  let state := loaded true "k" (sampleBuckets ["c1"] ["c1"] [] []) in
  ∃ state',
    moderatedCommentsReducer state
      (transition "k" true ["c1"] "highlight" "highlighted") = Ok state' ∧
    bucket state true "k" "highlighted" = Some ["c1"] ∧
    bucket state' true "k" "highlighted" = Some [] ∧
    state' ≠ state.
Proof.
  eexists. split; [vm_compute; reflexivity|].
  split; [vm_compute; reflexivity|]. split; [vm_compute; reflexivity|].
  intros H. apply (f_equal (λ st, bucket st true "k" "highlighted")) in H.
  vm_compute in H. discriminate.
Qed.

(** C6, as the code has it.  With action [reset] and a previous status
    among [approved], [rejected], [deferred], for either kind of scope and
    an id that is in the bucket of that status, the transition takes the
    first occurrence of the id out of that bucket and changes no other
    bucket, so the id is added nowhere.  With previous status
    [highlighted] the removal is skipped and the state stays as it is. *)
Theorem reset_removes_from_previous (isCategory : bool) (scope id : string)
    (state : IModeratedCommentsState) :
  (∀ previous l1 l2,
     previous ∈ ["approved"; "rejected"; "deferred"] →
     bucket state isCategory scope previous = Some (l1 ++ id :: l2) →
     id ∉ l1 →
     ∃ state',
       moderatedCommentsReducer state
         (transition scope isCategory [id] "reset" previous) = Ok state' ∧
       bucket state' isCategory scope previous = Some (l1 ++ l2) ∧
       (∀ c sc name, (c, sc, name) ≠ (isCategory, scope, previous) →
          bucket state' c sc name = bucket state c sc name) ∧
       isLoading state' = isLoading state) ∧
  moderatedCommentsReducer state
    (transition scope isCategory [id] "reset" "highlighted") = Ok state.
Proof.
  split.
  - intros previous l1 l2 Hprev Hb Hl1.
    apply transition_removal_only; [|done..].
    rewrite !elem_of_cons, elem_of_nil in Hprev.
    destruct Hprev as [->|[->|[->|[]]]]; by destruct isCategory.
  - apply transition_no_calls. by destruct isCategory.
Qed.

Lemma reset_removes_from_previous_witness :
  let state := loaded false "a1" (sampleBuckets [] [] ["c1"; "c2"] []) in
  let highlightedOnly := loaded true "k" (sampleBuckets [] ["c5"] [] []) in
  (∃ state',
     moderatedCommentsReducer state
       (transition "a1" false ["c2"] "reset" "rejected") = Ok state' ∧
     bucket state' false "a1" "rejected" = Some (["c1"] ++ []) ∧
     (∀ c sc name, (c, sc, name) ≠ (false, "a1", "rejected") →
        bucket state' c sc name = bucket state c sc name) ∧
     isLoading state' = isLoading state) ∧
  moderatedCommentsReducer highlightedOnly
    (transition "k" true ["c5"] "reset" "highlighted") = Ok highlightedOnly.
Proof.
  intros state highlightedOnly. split.
  - apply (proj1 (reset_removes_from_previous false "a1" "c2" state)
             "rejected" ["c1"] []).
    + compute_done.
    + vm_compute. reflexivity.
    + compute_done.
  - apply (proj2 (reset_removes_from_previous true "k" "c5" highlightedOnly)).
Defined.

(** C6 as stated fails for the previous status [highlighted]: the id stays
    in the [highlighted] bucket. *)
Lemma reset_of_highlighted_keeps_id :
  let state := loaded true "k" (sampleBuckets ["c1"] ["c1"] [] []) in
  ∃ state',
    moderatedCommentsReducer state
      (transition "k" true ["c1"] "reset" "highlighted") = Ok state' ∧
    bucket state' true "k" "highlighted" = Some ["c1"].
Proof.
  eexists. split; vm_compute; reflexivity.
Qed.

(** ** The [flagged] bucket *)

Section Flagged.







End Flagged.




(** ** One transition on one id *)

Section SingleTransition.
Implicit Types (state : IModeratedCommentsState) (cs : list Call).

Lemma transition_single_Ok isCategory scope id action previous state state' :
  moderatedCommentsReducer state
    (transition scope isCategory [id] action previous) = Ok state' →
  ∀ c sc name,
    bucket state' c sc name =
    if decide (c = isCategory ∧ sc = scope)
    then callsEffect id (callsOf isCategory action previous) name
           <$> bucket state c sc name
    else bucket state c sc name.
Proof.
  rewrite reducer_transition, forEach_single, stepOf_calls.
  destruct (runCalls _ _ _ _) as [m|] eqn:Hm; simpl; [|done].
  intros [= <-] c sc name. rewrite bucket_withScopes.
  destruct (decide (c = isCategory)) as [->|Hc].
  - unfold bucket. rewrite (runCalls_Ok _ _ _ _ _ Hm).
    destruct (decide (sc = scope)) as [->|Hsc].
    + by rewrite decide_True.
    + by rewrite decide_False by (by intros []).
  - by rewrite decide_False by (by intros []).
Qed.

Lemma runCalls_PushDeep scope id cs m :
  PushDeep ∈ cs → runCalls scope id cs m = Throw TypeError.
Proof.
  revert m. induction cs as [|c cs IH]; intros m Hin.
  - by apply elem_of_nil in Hin.
  - simpl. apply elem_of_cons in Hin as [<-|Hin].
    + simpl. by rewrite updateIn3_throws.
    + destruct (runCall scope id c m) as [m1|[]]; simpl; [by apply IH|done].
Qed.

(** X16.  Article scopes: a [highlight] of a comment that is not
    highlighted throws a [TypeError], whatever the state and for every
    list of at least one id, already for the first id. *)
Lemma article_highlight_always_throws state articleId id ids previous :
  previous ≠ "highlighted" →
  moderatedCommentsReducer state
    (transition articleId false (id :: ids) "highlight" previous) = Throw TypeError.
Proof.
  intros Hprev%String.eqb_neq. simpl.
  rewrite articleStep_calls, runCalls_PushDeep; [done|].
  unfold articleCalls. simpl. rewrite Hprev.
  rewrite elem_of_app, !elem_of_cons. auto.
Qed.

(** Article scopes: [reject], [defer] and [approve] change no bucket but
    that of the previous status; the id is appended nowhere. *)
Lemma article_pushes_dropped state articleId id action previous state' name :
  action ∈ ["reject"; "defer"; "approve"] →
  moderatedCommentsReducer state
    (transition articleId false [id] action previous) = Ok state' →
  name ≠ previous →
  bucket state' false articleId name = bucket state false articleId name.
Proof.
  intros Hact H Hname. rewrite (transition_single_Ok _ _ _ _ _ _ _ H).
  rewrite decide_True by done.
  assert (∀ l, callsEffect id (callsOf false action previous) name l = l) as Heff.
  { intros l. rewrite !elem_of_cons, elem_of_nil in Hact.
    destruct Hact as [->|[->|[->|[]]]]; unfold callsOf, articleCalls, removalCalls;
      simpl; destruct (shouldRemoveFromList _ _); unfold callsEffect; simpl;
      by rewrite ?decide_False by done. }
  destruct (bucket state false articleId name); simpl; [|done]. by rewrite Heff.
Qed.

(** Category scopes: [reject] appends to [rejected] and [defer] to
    [deferred]. *)
Lemma category_reject_defer_appends state category id action previous state' name :
  (action, name) ∈ [("reject", "rejected"); ("defer", "deferred")] →
  moderatedCommentsReducer state
    (transition category true [id] action previous) = Ok state' →
  name ≠ previous →
  bucket state' true category name =
  (λ l, l ++ [id]) <$> bucket state true category name.
Proof.
  intros Hact H Hname. rewrite (transition_single_Ok _ _ _ _ _ _ _ H).
  rewrite decide_True by done.
  assert (∀ l, callsEffect id (callsOf true action previous) name l = l ++ [id])
    as Heff.
  { intros l. rewrite !elem_of_cons, elem_of_nil in Hact.
    destruct Hact as [[= -> ->]|[[= -> ->]|[]]]; unfold callsOf, categoryCalls, removalCalls;
      simpl; destruct (shouldRemoveFromList _ _); unfold callsEffect; simpl;
      by rewrite ?decide_False by done. }
  destruct (bucket state true category name); simpl; [|done]. by rewrite Heff.
Qed.

(** X17.  Category scopes: a [highlight] of a comment that is not
    highlighted, when it goes through, appends the id to [highlighted] and
    to [approved]; the id is in both afterwards, and a second time in
    [approved] when it was there.  Nothing is removed: every other bucket
    of the store, that of the previous status included, is as before. *)
Lemma category_highlight_appends state category id previous state' :
  previous ≠ "highlighted" →
  moderatedCommentsReducer state
    (transition category true [id] "highlight" previous) = Ok state' →
  bucket state' true category "highlighted" =
    (λ l, l ++ [id]) <$> bucket state true category "highlighted" ∧
  bucket state' true category "approved" =
    (λ l, l ++ [id]) <$> bucket state true category "approved" ∧
  ∀ c sc name,
    (c, sc, name) ≠ (true, category, "highlighted") →
    (c, sc, name) ≠ (true, category, "approved") →
    bucket state' c sc name = bucket state c sc name.
Proof.
  intros Hprev%String.eqb_neq H.
  assert (callsOf true "highlight" previous =
          [Push (Some "highlighted"); Push (Some "approved")]) as Hcalls.
  { unfold callsOf, categoryCalls, removalCalls, shouldRemoveFromList. simpl.
    rewrite Hprev. simpl. by rewrite andb_false_r. }
  split; [|split].
  - rewrite (transition_single_Ok _ _ _ _ _ _ _ H), decide_True, Hcalls by done.
    by destruct (bucket state true category _).
  - rewrite (transition_single_Ok _ _ _ _ _ _ _ H), decide_True, Hcalls by done.
    by destruct (bucket state true category _).
  - intros c sc name Hh Ha.
    rewrite (transition_single_Ok _ _ _ _ _ _ _ H), Hcalls.
    case_decide as Hc; [|done]. destruct Hc as [-> ->].
    destruct (bucket state true category name); simpl; [|done].
    unfold callsEffect. simpl.
    rewrite !decide_False by congruence. done.
Qed.

(** X18.  Category scopes: [approve] of a rejected comment, when it goes
    through, applies the removal updater to [rejected] and appends the id
    to [approved]. *)
Lemma category_approve_rejected state category id state' :
  moderatedCommentsReducer state
    (transition category true [id] "approve" "rejected") = Ok state' →
  bucket state' true category "rejected" =
    deleteComment id <$> bucket state true category "rejected" ∧
  bucket state' true category "approved" =
    (λ l, l ++ [id]) <$> bucket state true category "approved".
Proof.
  intros H. rewrite !(transition_single_Ok _ _ _ _ _ _ _ H).
  rewrite !decide_True by done.
  split; by destruct (bucket state true category _).
Qed.

End SingleTransition.

(** ** Defects of the article handler and of the removal *)

(** C2.  In an article scope the value of [updateIn] is not assigned in the
    [reject] branch nor in the [default] branch that [defer] reaches: the
    transition goes through and the [rejected] and [deferred] buckets stay
    empty. *)
Lemma article_reject_defer_not_appended :
  let state := loaded false "a1" noBuckets in
  (∃ state',
     moderatedCommentsReducer state
       (transition "a1" false ["c1"] "reject" "batched") = Ok state' ∧
     bucket state' false "a1" "rejected" = Some []) ∧
  (∃ state',
     moderatedCommentsReducer state
       (transition "a1" false ["c1"] "defer" "batched") = Ok state' ∧
     bucket state' false "a1" "deferred" = Some []).
Proof.
  split; eexists; split; vm_compute; reflexivity.
Qed.

(** C3.  The scenario of the specification on the code: the id leaves
    [rejected] and does not reach [approved]. *)
Lemma article_approve_scenario :
  let state := dispatch initialState
                 (completeLoad "a1" false
                    {| approved := []; highlighted := []; rejected := ["c1"];
                       deferred := []; flagged := []; batched := [];
                       automated := [] |}) in
  ∃ state',
    moderatedCommentsReducer state
      (transition "a1" false ["c1"] "approve" "rejected") = Ok state' ∧
    bucket state' false "a1" "rejected" = Some [] ∧
    bucket state' false "a1" "approved" = Some [].
Proof.
  eexists. repeat split; vm_compute; reflexivity.
Qed.

(** C4.  In an article scope, highlighting a comment whose previous status
    is [approved] throws: the second [updateIn] is given the key path
    [['articles', articleId, 'approved']].  The store keeps its state and
    the id is not in [highlighted]. *)
Lemma article_highlight_throws :
  let state := loaded false "a1" (sampleBuckets ["c2"] [] [] []) in
  moderatedCommentsReducer state
    (transition "a1" false ["c2"] "highlight" "approved") = Throw TypeError ∧
  bucket (dispatch state (transition "a1" false ["c2"] "highlight" "approved"))
    false "a1" "highlighted" = Some [].
Proof.
  split; vm_compute; reflexivity.
Qed.

(** C5.  An id that is not in the bucket of its previous status:
    [findIndex] answers [-1] and [delete(-1)] takes the last element of the
    bucket out. *)
Lemma stale_previous_status_removes_last :
  let state := loaded true "k" (sampleBuckets [] [] ["c1"] []) in
  ∃ state',
    moderatedCommentsReducer state
      (transition "k" true ["c9"] "approve" "rejected") = Ok state' ∧
    bucket state true "k" "rejected" = Some ["c1"] ∧
    bucket state' true "k" "rejected" = Some [].
Proof.
  eexists. repeat split; vm_compute; reflexivity.
Qed.

(** ** Batches of transitions *)

Lemma forallb_pointwise {A} (f g : A → bool) (l : list A) :
  (∀ x, f x = g x) → forallb f l = forallb g l.
Proof. intros H. induction l as [|x l IH]; simpl; [done|]. by rewrite H, IH. Qed.

Section Batches.
Variable isCategory : bool.
Variable scope : string.
Implicit Types (m : ScopeMap) (it : BatchItem) (items : list BatchItem).

Lemma sameShape_refl m : sameShape m m.
Proof. by intros sc name. Qed.

Lemma sameShape_trans m1 m2 m3 :
  sameShape m1 m2 → sameShape m2 m3 → sameShape m1 m3.
Proof. intros H12 H23 sc name. etrans; [apply H12|apply H23]. Qed.

Lemma callOk_shape m m' c : sameShape m m' → callOk m scope c = callOk m' scope c.
Proof.
  intros H. destruct c as [k|[k|]|[k|]|]; simpl; try done;
    apply bool_decide_ext, H.
Qed.

Lemma runCall_shape id c m m' : runCall scope id c m = Ok m' → sameShape m m'.
Proof.
  intros H sc name. rewrite (runCall_Ok _ _ _ _ _ H).
  case_decide; [|done]. by rewrite fmap_is_Some.
Qed.

Lemma runCall_callOk id c m :
  if callOk m scope c then ∃ m', runCall scope id c m = Ok m'
  else runCall scope id c m = Throw TypeError.
Proof.
  destruct c as [k|[k|]|[k|]|]; simpl;
    rewrite ?updateIn_undefined, ?updateIn3_throws; try done;
    case_bool_decide as Hk.
  - destruct Hk as [l Hl]. rewrite (updateIn_Some _ _ _ _ _ Hl). eauto.
  - apply eq_None_not_Some in Hk. by rewrite updateIn_None.
  - destruct Hk as [l Hl]. rewrite (updateIn_Some _ _ _ _ _ Hl). eauto.
  - apply eq_None_not_Some in Hk. by rewrite updateIn_None.
  - destruct Hk as [l Hl]. rewrite (updateIn_Some _ _ _ _ _ Hl). simpl. eauto.
  - apply eq_None_not_Some in Hk. by rewrite updateIn_None.
Qed.

Lemma runCalls_callOk id cs m :
  if forallb (callOk m scope) cs then ∃ m', runCalls scope id cs m = Ok m'
  else runCalls scope id cs m = Throw TypeError.
Proof.
  revert m. induction cs as [|c cs IH]; intros m; simpl; [eauto|].
  pose proof (runCall_callOk id c m) as Hc.
  destruct (callOk m scope c); simpl.
  - destruct Hc as [m1 H1]. rewrite H1. simpl.
    rewrite (forallb_pointwise (callOk m scope) (callOk m1 scope));
      [apply IH|].
    intros c'. apply callOk_shape. eauto using runCall_shape.
  - by rewrite Hc.
Qed.

(** One item: the buckets of the scope after the step. *)
Lemma stepMap_bucket it m sc name :
  mbucket (stepMap isCategory scope it m) sc name =
  if decide (sc = scope)
  then callsEffect (itemId it) (effectiveCalls isCategory scope m it) name
         <$> mbucket m sc name
  else mbucket m sc name.
Proof.
  unfold stepMap, effectiveCalls. rewrite stepOf_calls.
  pose proof (runCalls_callOk (itemId it)
                (callsOf isCategory (itemAction it) (itemPrevious it)) m) as H.
  destruct (forallb _ _).
  - destruct H as [m' H]. rewrite H. apply (runCalls_Ok _ _ _ _ _ H).
  - rewrite H. case_decide; [|done]. by destruct (mbucket m sc name).
Qed.

Lemma stepMap_shape it m : sameShape m (stepMap isCategory scope it m).
Proof.
  intros sc name. rewrite stepMap_bucket. case_decide; [|done].
  by rewrite fmap_is_Some.
Qed.

Lemma effectiveCalls_shape m m' it :
  sameShape m m' →
  effectiveCalls isCategory scope m it = effectiveCalls isCategory scope m' it.
Proof.
  intros H. unfold effectiveCalls.
  rewrite (forallb_pointwise (callOk m scope) (callOk m' scope)); [done|].
  intros c. by apply callOk_shape.
Qed.

End Batches.

Section ItemEffect.
Implicit Types (m : ScopeMap) (it : BatchItem) (cs : list Call) (l : list string).

Lemma callsOf_split isCategory action previous :
  ∃ rest, callsOf isCategory action previous = removalCalls action previous ++ rest ∧
          Forall (λ c, ∀ k, c ≠ Delete k) rest.
Proof.
  unfold callsOf, categoryCalls, articleCalls.
  destruct isCategory; eexists; (split; [reflexivity|]);
    repeat case_match; repeat constructor; done.
Qed.

Lemma pushes_effect id name cs l :
  Forall (λ c, ∀ k, c ≠ Delete k) cs →
  callsEffect id cs name l = l ++ (cs ≫= addedBy id name) ∧
  cs ≫= removedBy id name = [].
Proof.
  intros H. revert l. induction H as [|c cs Hc _ IH]; intros l.
  - split; [|done]. unfold callsEffect. simpl. by rewrite app_nil_r.
  - rewrite !bind_cons.
    change (callsEffect id (c :: cs) name l)
      with (callsEffect id cs name (callEffect id c name l)).
    destruct (IH (callEffect id c name l)) as [-> ->].
    destruct c as [k|[k|]|k|]; simpl; rewrite ?app_nil_r; try done.
    + by destruct (Hc k).
    + case_decide; simpl; [|done]. unfold pushComment, Immutable.push.
      by rewrite <- app_assoc.
Qed.

Lemma removal_effect id name action previous l :
  let removing :=
    shouldRemoveFromList previous action && bool_decide (name = previous) in
  callsEffect id (removalCalls action previous) name l =
    (if removing then deleteComment id l else l) ∧
  removalCalls action previous ≫= removedBy id name =
    (if removing then [id] else []) ∧
  removalCalls action previous ≫= addedBy id name = [].
Proof.
  unfold removalCalls.
  destruct (shouldRemoveFromList previous action); simpl; [|done].
  case_bool_decide; case_decide; done.
Qed.

Lemma deleteComment_elem_of id l :
  id ∈ l →
  deleteComment id l ++ [id] ≡ₚ l ∧
  ∀ y, y ≠ id → y ∈ l → y ∈ deleteComment id l.
Proof.
  intros (l1 & l2 & -> & Hl1)%elem_of_split_first.
  rewrite deleteComment_present by done. split.
  - rewrite <- app_assoc. apply Permutation_app_head.
    symmetry. apply Permutation_cons_append.
  - intros y Hy. rewrite !elem_of_app, elem_of_cons. intros [?|[?|?]]; auto. done.
Qed.

(** One item, one bucket: what was there and what was put in is what is
    there now and what was taken out; the other ids all stay. *)
Lemma item_effect isCategory scope m it name l :
  (shouldRemoveFromList (itemPrevious it) (itemAction it) = true →
   name = itemPrevious it → itemId it ∈ l) →
  let l' := callsEffect (itemId it) (effectiveCalls isCategory scope m it) name l in
  l' ++ itemRemoved isCategory scope m name it ≡ₚ
    l ++ itemAdded isCategory scope m name it ∧
  ∀ y, y ≠ itemId it → y ∈ l → y ∈ l'.
Proof.
  intros Hin. unfold itemRemoved, itemAdded, effectiveCalls.
  destruct (forallb _ _); simpl; [|done].
  destruct (callsOf_split isCategory (itemAction it) (itemPrevious it))
    as (rest & -> & Hrest).
  unfold callsEffect. rewrite foldl_app, !bind_app.
  destruct (removal_effect (itemId it) name (itemAction it) (itemPrevious it) l)
    as (Heff & Hrem & Hadd).
  unfold callsEffect in Heff. rewrite Heff, Hrem, Hadd. clear Heff Hrem Hadd.
  destruct (pushes_effect (itemId it) name rest
              (if shouldRemoveFromList (itemPrevious it) (itemAction it)
                    && bool_decide (name = itemPrevious it)
               then deleteComment (itemId it) l else l) Hrest) as [Heff Hrem].
  unfold callsEffect in Heff. rewrite Heff, Hrem. clear Heff Hrem.
  destruct (shouldRemoveFromList _ _) eqn:Hs; simpl.
  - case_bool_decide as Hn; simpl.
    + destruct (deleteComment_elem_of (itemId it) l) as [Hp Hk]; [by apply Hin|].
      split.
      * etrans; [|apply Permutation_app_tail, Hp].
        rewrite <- !app_assoc. apply Permutation_app_head, Permutation_app_comm.
      * intros y Hy Hl. apply elem_of_app. left. by apply Hk.
    + split; [by rewrite app_nil_r|]. intros y _ Hl. apply elem_of_app. by left.
  - split; [by rewrite app_nil_r|]. intros y _ Hl. apply elem_of_app. by left.
Qed.

End ItemEffect.

Section BatchOrder.
Variable isCategory : bool.
Variable scope : string.
Implicit Types (m : ScopeMap) (it : BatchItem) (items : list BatchItem).

Local Abbreviation step := (λ m it, stepMap isCategory scope it m).

Lemma foldl_stepMap_shape items m : sameShape m (foldl step m items).
Proof.
  revert m. induction items as [|it items IH]; intros m; simpl.
  - apply sameShape_refl.
  - eapply sameShape_trans; [apply (stepMap_shape isCategory scope it)|apply IH].
Qed.

Lemma foldl_stepMap_other items m sc name :
  sc ≠ scope → mbucket (foldl step m items) sc name = mbucket m sc name.
Proof.
  intros Hne. revert m. induction items as [|it items IH]; intros m; simpl; [done|].
  rewrite IH, stepMap_bucket. by rewrite decide_False.
Qed.

Lemma present_step it items m :
  present scope (it :: items) m → itemId it ∉ itemId <$> items →
  present scope items (stepMap isCategory scope it m).
Proof.
  intros Hp Hid it' Hit' Hs'.
  destruct (Hp it') as (l & Hl & Hin); [by right|done|].
  rewrite stepMap_bucket, decide_True, Hl by done. simpl.
  eexists. split; [reflexivity|].
  destruct (item_effect isCategory scope m it (itemPrevious it') l) as [_ Hk].
  { intros Hs Heq. destruct (Hp it) as (l2 & Hl2 & Hin2); [by left|done|].
    rewrite <- Heq, Hl in Hl2. by injection Hl2 as ->. }
  apply Hk; [|done]. intros Heq. apply Hid. rewrite <- Heq.
  by apply list_elem_of_fmap_2.
Qed.

(** A batch, one bucket: the ids there at the end and the ids taken out
    are the ids there at the start and the ids put in. *)
Lemma batch_effect items m0 m name l :
  sameShape m0 m → NoDup (itemId <$> items) → present scope items m →
  mbucket m scope name = Some l →
  ∃ l', mbucket (foldl step m items) scope name = Some l' ∧
        l' ++ (items ≫= itemRemoved isCategory scope m0 name) ≡ₚ
        l ++ (items ≫= itemAdded isCategory scope m0 name).
Proof.
  revert m l. induction items as [|it items IH]; intros m l Hshape Hnd Hp Hl.
  - simpl. eauto.
  - cbn [foldl]. rewrite fmap_cons in Hnd. apply NoDup_cons in Hnd as [Hid Hnd].
    destruct (item_effect isCategory scope m it name l) as [Hitem _].
    { intros Hs ->. destruct (Hp it) as (l2 & Hl2 & Hin2); [by left|done|].
      rewrite Hl in Hl2. by injection Hl2 as ->. }
    unfold itemRemoved, itemAdded in Hitem.
    destruct (IH (stepMap isCategory scope it m)
                (callsEffect (itemId it) (effectiveCalls isCategory scope m it) name l))
      as (l' & Hl' & Hperm).
    + eapply sameShape_trans; [done|apply stepMap_shape].
    + done.
    + by apply present_step.
    + by rewrite stepMap_bucket, decide_True, Hl.
    + exists l'. split; [done|]. rewrite !bind_cons.
      rewrite (Permutation_app_comm (itemRemoved _ _ _ _ it)), app_assoc, Hperm.
      rewrite <- app_assoc, (Permutation_app_comm (_ ≫= _)), app_assoc.
      unfold itemRemoved, itemAdded.
      rewrite (effectiveCalls_shape isCategory scope m0 m it Hshape).
      rewrite Hitem. by rewrite <- app_assoc.
Qed.

Lemma present_Permutation items items' m :
  items ≡ₚ items' → present scope items m → present scope items' m.
Proof. intros Hperm Hp it Hit. apply Hp. by rewrite Hperm. Qed.

(** Two orders of one batch agree on every bucket up to the order of
    the ids in it. *)
Lemma batch_order_scopes items items' m sc name :
  items ≡ₚ items' → NoDup (itemId <$> items) → present scope items m →
  option_Forall2 (≡ₚ) (mbucket (foldl step m items) sc name)
                      (mbucket (foldl step m items') sc name).
Proof.
  intros Hperm Hnd Hp.
  destruct (decide (sc = scope)) as [->|Hne];
    [|rewrite !foldl_stepMap_other by done; reflexivity].
  destruct (mbucket m scope name) as [l|] eqn:Hl.
  - destruct (batch_effect items m m name l) as (l1 & -> & H1);
      [apply sameShape_refl|done..|].
    destruct (batch_effect items' m m name l) as (l2 & -> & H2);
      [apply sameShape_refl| |by eapply present_Permutation|done|].
    { by rewrite <- Hperm. }
    constructor. rewrite <- Hperm in H2. rewrite <- H2 in H1.
    by apply Permutation_app_inv_r in H1.
  - pose proof (foldl_stepMap_shape items m scope name) as H1.
    pose proof (foldl_stepMap_shape items' m scope name) as H2.
    rewrite Hl in H1, H2.
    destruct (mbucket (foldl step m items) scope name);
      [by destruct H1 as [_ [? ?]]; eauto|].
    destruct (mbucket (foldl step m items') scope name);
      [by destruct H2 as [_ [? ?]]; eauto|].
    constructor.
Qed.

Lemma dispatch_single state it :
  dispatch state
    (transition scope isCategory [itemId it] (itemAction it) (itemPrevious it)) =
  withScopes isCategory state (stepMap isCategory scope it (scopes isCategory state)).
Proof.
  unfold dispatch, stepMap. rewrite reducer_transition, forEach_single.
  destruct (stepOf _ _ _ _ _ _); simpl; [done|].
  by rewrite withScopes_scopes.
Qed.

Lemma withScopes_withScopes state m m' :
  withScopes isCategory (withScopes isCategory state m) m' =
  withScopes isCategory state m'.
Proof. by destruct isCategory. Qed.

Lemma applyBatch_scopes items state :
  applyBatch scope isCategory items state =
  withScopes isCategory state (foldl step (scopes isCategory state) items).
Proof.
  revert state. induction items as [|it items IH]; intros state.
  - symmetry. apply withScopes_scopes.
  - unfold applyBatch in *. simpl. rewrite IH, dispatch_single.
    by rewrite scopes_withScopes, withScopes_withScopes.
Qed.

End BatchOrder.

(** C8, as the code has it.  For either kind of scope and every batch of
    transitions on distinct comment ids, each with its own action and
    previous status, in which every id that the removal step applies to is
    in the bucket of its previous status: dispatching the batch in any two
    orders gives stores with the same loading flag whose buckets, for
    every scope and every name, hold the same ids up to their order in the
    bucket.  The order of the ids in a bucket follows the order of the
    dispatches. *)
Theorem batch_order_same_members (scope : string) (isCategory : bool)
    (items items' : list BatchItem) (state : IModeratedCommentsState) :
  items ≡ₚ items' →
  NoDup (itemId <$> items) →
  (∀ it, it ∈ items →
     shouldRemoveFromList (itemPrevious it) (itemAction it) = true →
     ∃ l, bucket state isCategory scope (itemPrevious it) = Some l ∧ itemId it ∈ l) →
  isLoading (applyBatch scope isCategory items state) =
    isLoading (applyBatch scope isCategory items' state) ∧
  ∀ c sc name,
    option_Forall2 (≡ₚ)
      (bucket (applyBatch scope isCategory items state) c sc name)
      (bucket (applyBatch scope isCategory items' state) c sc name).
Proof.
  intros Hperm Hnd Hp. rewrite !applyBatch_scopes. split.
  - by rewrite !isLoading_withScopes.
  - intros c sc name. rewrite !bucket_withScopes.
    case_decide; [|reflexivity]. by apply batch_order_scopes.
Qed.

Lemma batch_order_same_members_witness :
  isLoading (applyBatch "k" true sampleBatch batchStore) =
    isLoading (applyBatch "k" true (reverse sampleBatch) batchStore) ∧
  ∀ c sc name,
    option_Forall2 (≡ₚ)
      (bucket (applyBatch "k" true sampleBatch batchStore) c sc name)
      (bucket (applyBatch "k" true (reverse sampleBatch) batchStore) c sc name).
Proof.
  apply (batch_order_same_members "k" true sampleBatch (reverse sampleBatch) batchStore).
  - symmetry. apply reverse_Permutation.
  - compute_done.
  - intros it Hit Hs. unfold sampleBatch in Hit.
    rewrite !elem_of_cons, elem_of_nil in Hit.
    destruct Hit as [->|[->|[->|[]]]].
    + exists ["c1"]. split; [vm_compute; reflexivity|compute_done].
    + discriminate Hs.
    + exists ["c3"]. split; [vm_compute; reflexivity|compute_done].
Defined.

(** C8 as stated fails: three distinct ids with three different previous
    statuses and three different actions, each id in the bucket of its
    previous status, dispatched in two orders, leave the [approved] bucket
    in two different orders, hence two different states. *)
Lemma batch_order_changes_state :
  reverse sampleBatch ≡ₚ sampleBatch ∧
  NoDup (itemId <$> sampleBatch) ∧
  NoDup (itemPrevious <$> sampleBatch) ∧
  NoDup (itemAction <$> sampleBatch) ∧
  bucket (applyBatch "k" true sampleBatch batchStore) true "k" "approved"
    = Some ["c1"; "c2"] ∧
  bucket (applyBatch "k" true (reverse sampleBatch) batchStore) true "k" "approved"
    = Some ["c2"; "c1"] ∧
  applyBatch "k" true sampleBatch batchStore ≠
  applyBatch "k" true (reverse sampleBatch) batchStore.
Proof.
  split; [apply reverse_Permutation|].
  split; [compute_done|]. split; [compute_done|]. split; [compute_done|].
  split; [vm_compute; reflexivity|]. split; [vm_compute; reflexivity|].
  intros H. apply (f_equal (λ st, bucket st true "k" "approved")) in H.
  vm_compute in H. discriminate.
Qed.

(** * Further properties *)

(** ** Loads *)

Lemma fromJS_lookup mc :
  fromJS mc !! "approved" = Some (approved mc) ∧
  fromJS mc !! "highlighted" = Some (highlighted mc) ∧
  fromJS mc !! "rejected" = Some (rejected mc) ∧
  fromJS mc !! "deferred" = Some (deferred mc) ∧
  fromJS mc !! "flagged" = Some (flagged mc) ∧
  fromJS mc !! "batched" = Some (batched mc) ∧
  fromJS mc !! "automated" = Some (automated mc).
Proof. repeat split; reflexivity. Qed.

(** X1.  A completed load can be read back: after [completeLoad] for a
    scope, [getModeratedComments] for that scope and kind returns the
    loaded collection, whose seven buckets are the seven lists of the
    payload, and [getIsLoading] answers [false]; whatever the store held
    before. *)
Theorem completeLoad_read_back (Params : Type) (isArticleContext : Params → bool)
    (contextId : Params → string) (state : IModeratedCommentsState)
    (scope : string) (isCategory : bool) (mc : IModeratedComments) (params : Params) :
  isArticleContext params = negb isCategory →
  contextId params = scope →
  let app := {| moderatedComments :=
                  Some (dispatch state (completeLoad scope isCategory mc)) |} in
  let found := getModeratedComments Params isArticleContext contextId app params in
  getIsLoading app = Some false ∧
  found !! "approved" = Some (approved mc) ∧
  found !! "highlighted" = Some (highlighted mc) ∧
  found !! "rejected" = Some (rejected mc) ∧
  found !! "deferred" = Some (deferred mc) ∧
  found !! "flagged" = Some (flagged mc) ∧
  found !! "batched" = Some (batched mc) ∧
  found !! "automated" = Some (automated mc) ∧
  dom found = bucketNames.
Proof.
  intros Hkind Hid app found.
  assert (found = fromJS mc) as ->.
  { unfold found, app, getModeratedComments, getModeratedCommentsForArticle,
      getModeratedCommentsForCategory, getRecord.
    rewrite Hkind, Hid. destruct isCategory; simpl; by rewrite lookup_insert_eq. }
  split; [by destruct isCategory|].
  pose proof (fromJS_lookup mc) as (?&?&?&?&?&?&?). pose proof (fromJS_dom mc).
  repeat split; assumption.
Qed.

Lemma completeLoad_read_back_witness :
  let app := {| moderatedComments :=
                  Some (dispatch batchStore
                          (completeLoad "k" true (sampleBuckets ["c1"] [] ["c2"] []))) |} in
  let found := getModeratedComments (bool * string) fst snd app (false, "k") in
  getIsLoading app = Some false ∧
  found !! "approved" = Some ["c1"] ∧
  found !! "highlighted" = Some [] ∧
  found !! "rejected" = Some ["c2"] ∧
  found !! "deferred" = Some [] ∧
  found !! "flagged" = Some [] ∧
  found !! "batched" = Some [] ∧
  found !! "automated" = Some [] ∧
  dom found = bucketNames.
Proof.
  apply (completeLoad_read_back (bool * string) fst snd batchStore "k" true
           (sampleBuckets ["c1"] [] ["c2"] []) (false, "k")); reflexivity.
Defined.

(** X2.  A completed load replaces: for one scope, the second of two
    completed loads wins and nothing of the first is left, so loading the
    same payload twice is loading it once. *)
Theorem completeLoad_overwrites (state : IModeratedCommentsState) (scope : string)
    (isCategory : bool) (mc1 mc2 : IModeratedComments) :
  dispatch (dispatch state (completeLoad scope isCategory mc1))
           (completeLoad scope isCategory mc2) =
  dispatch state (completeLoad scope isCategory mc2).
Proof.
  destruct isCategory; unfold dispatch; simpl; by rewrite insert_insert_eq.
Qed.

(** X3.  A completed load touches its scope only: every other scope of the
    same kind and every scope of the other kind keeps its collection. *)
Theorem completeLoad_frame (state : IModeratedCommentsState) (scope : string)
    (isCategory : bool) (mc : IModeratedComments) (c : bool) (sc : string) :
  (c, sc) ≠ (isCategory, scope) →
  scopes c (dispatch state (completeLoad scope isCategory mc)) !! sc =
  scopes c state !! sc.
Proof.
  intros Hne. destruct isCategory, c; unfold dispatch; simpl; try done;
    rewrite lookup_insert_ne; congruence.
Qed.

Lemma completeLoad_frame_witness :
  scopes true (dispatch batchStore (completeLoad "a1" false noBuckets)) !! "k" =
  scopes true batchStore !! "k".
Proof.
  apply (completeLoad_frame batchStore "a1" false noBuckets true "k"). discriminate.
Defined.

(** ** Transitions: what they leave alone *)

Section TransitionFrame.
Implicit Types (m : ScopeMap) (state : IModeratedCommentsState).

Lemma runCall_other scope id c m m' sc :
  runCall scope id c m = Ok m' → sc ≠ scope → m' !! sc = m !! sc.
Proof.
  intros H Hne. destruct c as [k|k|k|]; simpl in H.
  - apply updateIn_Ok in H as (? & ? & _ & _ & ->). by rewrite lookup_alter_ne.
  - apply updateIn_Ok in H as (? & ? & _ & _ & ->). by rewrite lookup_alter_ne.
  - destruct (updateIn m scope k _); simpl in H; [|done]. by injection H as <-.
  - by rewrite updateIn3_throws in H.
Qed.

Lemma runCalls_other scope id cs m m' sc :
  runCalls scope id cs m = Ok m' → sc ≠ scope → m' !! sc = m !! sc.
Proof.
  revert m. induction cs as [|c cs IH]; simpl; intros m H Hne.
  - by injection H as <-.
  - destruct (runCall scope id c m) as [m1|] eqn:H1; simpl in H; [|done].
    rewrite (IH _ H Hne). eauto using runCall_other.
Qed.

Lemma forEach_other isCategory scope action previous ids m m' sc :
  forEach (stepOf isCategory scope action previous) ids m = Ok m' →
  sc ≠ scope → m' !! sc = m !! sc.
Proof.
  revert m. induction ids as [|id ids IH]; simpl; intros m H Hne.
  - by injection H as <-.
  - destruct (stepOf _ _ _ _ m id) as [m1|] eqn:H1; simpl in H; [|done].
    rewrite (IH _ H Hne). rewrite stepOf_calls in H1. eauto using runCalls_other.
Qed.

Lemma scopes_withScopes_other isCategory state m :
  scopes (negb isCategory) (withScopes isCategory state m) =
  scopes (negb isCategory) state.
Proof. by destruct isCategory. Qed.

Lemma forEach_app step ids1 ids2 m :
  forEach step (ids1 ++ ids2) m = (m1 ← forEach step ids1 m; forEach step ids2 m1).
Proof.
  revert m. induction ids1 as [|id ids1 IH]; intros m; simpl; [done|].
  destruct (step m id); simpl; [apply IH|done].
Qed.

Lemma dispatch_isLoading state a :
  isLoading (dispatch state a) = loadingAfter (isLoading state) [a].
Proof.
  unfold dispatch. destruct a as [|sc mc|sc mc|sc ids act prev|sc ids act prev]; simpl;
    try done; by destruct (forEach _ _ _).
Qed.

Lemma foldl_dispatch_isLoading state acts :
  isLoading (foldl dispatch state acts) = loadingAfter (isLoading state) acts.
Proof.
  revert state. induction acts as [|a acts IH]; intros state; [done|].
  cbn [foldl]. rewrite IH, dispatch_isLoading. reflexivity.
Qed.

End TransitionFrame.

(** X5.  A dispatched transition changes nothing outside its scope: the
    loading flag, the scope map of the other kind and every other scope of
    its own kind are as before; for every list of ids, action and previous
    status, also when the reducer throws. *)
Theorem transition_frame (state : IModeratedCommentsState) (scope : string)
    (isCategory : bool) (ids : list string) (action previous : string) :
  let state' := dispatch state (transition scope isCategory ids action previous) in
  isLoading state' = isLoading state ∧
  scopes (negb isCategory) state' = scopes (negb isCategory) state ∧
  ∀ sc, sc ≠ scope → scopes isCategory state' !! sc = scopes isCategory state !! sc.
Proof.
  unfold dispatch. rewrite reducer_transition.
  destruct (forEach _ ids _) as [m|] eqn:Hm; simpl; [|done].
  rewrite isLoading_withScopes, scopes_withScopes_other, scopes_withScopes.
  repeat split. intros sc Hne. eauto using forEach_other.
Qed.

(** X6.  The loading flag follows the load actions alone: after any
    sequence of dispatched actions it is [true] when the last load action
    was a start, [false] when it was a completion, and the flag at the
    beginning when there was none; transitions, failing or not, never
    change it. *)
Theorem isLoading_after_actions (state : IModeratedCommentsState) (acts : list Action) :
  isLoading (foldl dispatch state acts) = loadingAfter (isLoading state) acts.
Proof.
  revert state. induction acts as [|a acts IH]; intros state; [done|].
  cbn [foldl]. rewrite IH, dispatch_isLoading. reflexivity.
Qed.

(** X4.  A load function dispatches the start at once and the completion
    only when the data service has answered.  When it has, whatever other
    actions reached the store in between, the store is the one they left
    with the completed load dispatched on it: the scope holds the fetched
    payload and the loading flag is [false].  When the data service fails,
    no completion is dispatched: the store is what the start and the other
    actions left, and the flag is [true] unless another load completed in
    between. *)
Theorem loadModeratedComments_outcome
    (fetchArticle fetchCategory : string → list string → option IModeratedComments)
    (state : IModeratedCommentsState) (scope : string) (sort : list string)
    (between : list Action) :
  let started := foldl dispatch (dispatch state loadModeratedCommentsStart) between in
  let afterArticle :=
    afterLoad (loadModeratedCommentsForArticle fetchArticle scope sort) between state in
  let afterCategory :=
    afterLoad (loadModeratedCommentsForCategory fetchCategory scope sort) between state in
  match fetchArticle scope sort with
  | Some mc =>
      afterArticle = dispatch started (completeLoad scope false mc) ∧
      isLoading afterArticle = false ∧
      articles afterArticle !! scope = Some (fromJS mc)
  | None =>
      afterArticle = started ∧ isLoading afterArticle = loadingAfter true between
  end ∧
  match fetchCategory scope sort with
  | Some mc =>
      afterCategory = dispatch started (completeLoad scope true mc) ∧
      isLoading afterCategory = false ∧
      categories afterCategory !! scope = Some (fromJS mc)
  | None =>
      afterCategory = started ∧ isLoading afterCategory = loadingAfter true between
  end.
Proof.
  intros started afterArticle afterCategory.
  unfold afterArticle, afterCategory, afterLoad, loadModeratedCommentsForArticle,
    loadModeratedCommentsForCategory. simpl.
  split.
  - destruct (fetchArticle scope sort) as [mc|]; simpl.
    + split; [done|]. split; [done|]. unfold dispatch at 1. simpl.
      apply lookup_insert_eq.
    + split; [done|]. by rewrite foldl_dispatch_isLoading.
  - destruct (fetchCategory scope sort) as [mc|]; simpl.
    + split; [done|]. split; [done|]. unfold dispatch at 1. simpl.
      apply lookup_insert_eq.
    + split; [done|]. by rewrite foldl_dispatch_isLoading.
Qed.

(** X7.  A transition on a list of ids is the transitions on its parts,
    one after the other: the reducer on [ids1 ++ ids2] gives what the
    reducer on [ids2] gives after the reducer on [ids1], an exception of
    the first part included; and on the empty list it returns the state. *)
Theorem transition_app (state : IModeratedCommentsState) (scope : string)
    (isCategory : bool) (ids1 ids2 : list string) (action previous : string) :
  moderatedCommentsReducer state
    (transition scope isCategory (ids1 ++ ids2) action previous) =
  (state1 ← moderatedCommentsReducer state
              (transition scope isCategory ids1 action previous);
   moderatedCommentsReducer state1
     (transition scope isCategory ids2 action previous)) ∧
  moderatedCommentsReducer state (transition scope isCategory [] action previous)
    = Ok state.
Proof.
  split.
  - rewrite !reducer_transition, forEach_app.
    destruct (forEach _ ids1 _) as [m1|]; simpl; [|done].
    rewrite reducer_transition, scopes_withScopes.
    destruct (forEach _ ids2 _); simpl; [|done]. by rewrite withScopes_withScopes.
  - rewrite reducer_transition. simpl. by rewrite withScopes_scopes.
Qed.

(** ** Transitions: when they throw *)

Section TransitionOutcome.
Implicit Types (m : ScopeMap) (state : IModeratedCommentsState).

Lemma runCalls_shape scope id cs m m' :
  runCalls scope id cs m = Ok m' → sameShape m m'.
Proof.
  revert m. induction cs as [|c cs IH]; simpl; intros m H.
  - injection H as <-. apply sameShape_refl.
  - destruct (runCall scope id c m) as [m1|] eqn:H1; simpl in H; [|done].
    eapply sameShape_trans; [by eapply runCall_shape|by apply IH].
Qed.

Lemma forEach_no_calls isCategory scope action previous ids m :
  callsOf isCategory action previous = [] →
  forEach (stepOf isCategory scope action previous) ids m = Ok m.
Proof.
  intros Hcalls. induction ids as [|id ids IH]; simpl; [done|].
  rewrite stepOf_calls, Hcalls. simpl. apply IH.
Qed.

Lemma runCall_unloaded scope id c m :
  m !! scope = None → runCall scope id c m = Throw TypeError.
Proof.
  intros Hm. destruct c as [k|k|k|]; simpl; unfold updateIn;
    rewrite ?Hm, ?updateIn3_throws; done.
Qed.

(** The loop body makes no call exactly for a [reset] without removal. *)
Lemma callsOf_nil isCategory action previous :
  String.eqb action "reset" && negb (shouldRemoveFromList previous action) = true →
  callsOf isCategory action previous = [].
Proof.
  intros [Hreset Hrem%negb_true_iff]%andb_true_iff.
  apply String.eqb_eq in Hreset as ->.
  destruct isCategory; unfold callsOf, categoryCalls, articleCalls, removalCalls;
    by rewrite Hrem.
Qed.

Lemma callsOf_cons isCategory action previous :
  String.eqb action "reset" && negb (shouldRemoveFromList previous action) = false →
  ∃ c cs, callsOf isCategory action previous = c :: cs.
Proof.
  intros Hquiet.
  assert (∀ c cs' : list Call, (∃ x xs, cs' = x :: xs) ∨ (∃ x xs, c = x :: xs) →
                               ∃ x xs, c ++ cs' = x :: xs) as Happ.
  { intros [|x c] cs' [(y & ys & ->)|(y & ys & Heq)]; simpl; eauto; done. }
  destruct isCategory; unfold callsOf, categoryCalls, articleCalls, removalCalls;
    apply Happ;
    (destruct (shouldRemoveFromList previous action) eqn:Hrem; [by eauto|]);
    rewrite andb_true_r in Hquiet; rewrite Hquiet; left;
    (destruct (String.eqb action "reject"); [by eauto|]);
    (destruct (String.eqb action "highlight") eqn:Hhl; [|by eauto]);
    (destruct (String.eqb previous "highlighted") eqn:Hprev; [|by eauto]);
    apply String.eqb_eq in Hhl as ->; apply String.eqb_eq in Hprev as ->;
    discriminate Hrem.
Qed.

(** On a scope that has the seven buckets every call of the five
    moderation actions goes through, but for the three-key [updateIn] of
    the article handler. *)
Lemma callsOf_allOk isCategory scope action previous m :
  (∀ k, k ∈ bucketNameList → is_Some (mbucket m scope k)) →
  action ∈ moderationActions → previous ∈ bucketNameList →
  (isCategory = false → action = "highlight" → previous = "highlighted") →
  forallb (callOk m scope) (callsOf isCategory action previous) = true.
Proof.
  intros Hm Hact Hprev Hart.
  assert (callOk m scope (Delete previous) = true) as Hdel.
  { simpl. apply bool_decide_eq_true. by apply Hm. }
  assert (∀ k, k ∈ bucketNameList → callOk m scope (Push (Some k)) = true ∧
                                      callOk m scope (PushDropped (Some k)) = true)
    as Hpush.
  { intros k Hk. simpl. split; apply bool_decide_eq_true; by apply Hm. }
  destruct (Hpush "approved") as [Ha Ha']; [compute_done|].
  destruct (Hpush "highlighted") as [Hh Hh']; [compute_done|].
  destruct (Hpush "rejected") as [Hr Hr']; [compute_done|].
  destruct (Hpush "deferred") as [Hd Hd']; [compute_done|].
  assert (forallb (callOk m scope) (removalCalls action previous) = true) as Hrem.
  { unfold removalCalls. destruct (shouldRemoveFromList previous action); [|done].
    cbn [forallb]. by rewrite Hdel. }
  unfold moderationActions in Hact. rewrite !elem_of_cons, elem_of_nil in Hact.
  destruct isCategory; unfold callsOf, categoryCalls, articleCalls;
    rewrite forallb_app, Hrem;
    destruct Hact as [->|[->|[->|[->|[->|[]]]]]];
    cbn -[callOk]; rewrite ?Ha, ?Ha', ?Hh, ?Hh', ?Hr, ?Hr', ?Hd, ?Hd'; try done.
  - destruct (String.eqb previous "highlighted"); cbn -[callOk];
      by rewrite ?Ha, ?Hh.
  - rewrite Hart by done. done.
Qed.

Lemma forEach_allOk isCategory scope action previous ids m :
  forallb (callOk m scope) (callsOf isCategory action previous) = true →
  ∃ m', forEach (stepOf isCategory scope action previous) ids m = Ok m'.
Proof.
  revert m. induction ids as [|id ids IH]; intros m Hok; simpl; [eauto|].
  rewrite stepOf_calls.
  pose proof (runCalls_callOk scope id (callsOf isCategory action previous) m) as H.
  rewrite Hok in H. destruct H as [m1 H1]. rewrite H1. simpl. apply IH.
  rewrite <- Hok. apply forallb_pointwise. intros c. symmetry.
  apply callOk_shape. by eapply runCalls_shape.
Qed.

Lemma forEach_notOk isCategory scope action previous id ids m :
  forallb (callOk m scope) (callsOf isCategory action previous) = false →
  forEach (stepOf isCategory scope action previous) (id :: ids) m = Throw TypeError.
Proof.
  intros Hok. simpl. rewrite stepOf_calls.
  pose proof (runCalls_callOk scope id (callsOf isCategory action previous) m) as H.
  rewrite Hok in H. by rewrite H.
Qed.

Lemma sevenBuckets_loaded m scope buckets :
  m !! scope = Some buckets → dom buckets = bucketNames →
  ∀ k, k ∈ bucketNameList → is_Some (mbucket m scope k).
Proof.
  intros Hm Hdom k Hk. unfold mbucket. rewrite Hm. simpl.
  apply elem_of_dom. rewrite Hdom. unfold bucketNames, bucketNameList in *.
  rewrite !elem_of_cons, elem_of_nil in Hk. set_unfold. tauto.
Qed.

Lemma sevenBuckets_not_tagged m scope :
  sevenBuckets m → mbucket m scope "tagged" = None.
Proof.
  intros Hm. unfold mbucket. destruct (m !! scope) as [buckets|] eqn:Hs; [|done].
  simpl. apply not_elem_of_dom. rewrite (Hm _ _ Hs). unfold bucketNames.
  set_unfold. intros H. repeat destruct H as [H|H]; discriminate.
Qed.

Lemma run_sevenBuckets isCategory acts : sevenBuckets (scopes isCategory (run acts)).
Proof.
  destruct (foldl_sevenBuckets acts initialState) as [Ha Hc].
  { split; intros sc b; simpl; by rewrite lookup_empty. }
  by destruct isCategory.
Qed.

End TransitionOutcome.

(** X8.  A transition on a scope that is not in the store, with at least
    one id, throws a [TypeError]: the first [updateIn] finds nothing at its
    key path.  The one exception is a [reset] for which no removal is due
    (previous status [highlighted], [batched] or [automated]): the loop
    body makes no call and the reducer returns the state. *)
Theorem transition_unloaded_scope (state : IModeratedCommentsState) (scope : string)
    (isCategory : bool) (id : string) (ids : list string) (action previous : string) :
  scopes isCategory state !! scope = None →
  moderatedCommentsReducer state
    (transition scope isCategory (id :: ids) action previous) =
  if String.eqb action "reset" && negb (shouldRemoveFromList previous action)
  then Ok state else Throw TypeError.
Proof.
  intros Hm. rewrite reducer_transition.
  destruct (String.eqb action "reset" && negb (shouldRemoveFromList previous action))
    eqn:Hquiet.
  - rewrite forEach_no_calls by (by apply callsOf_nil). simpl.
    by rewrite withScopes_scopes.
  - destruct (callsOf_cons isCategory _ _ Hquiet) as (c & cs & Hcalls).
    simpl. rewrite stepOf_calls, Hcalls. simpl.
    by rewrite runCall_unloaded.
Qed.

Lemma transition_unloaded_scope_witness :
  moderatedCommentsReducer initialState
    (transition "a1" false ["c1"] "approve" "rejected") = Throw TypeError.
Proof.
  apply (transition_unloaded_scope initialState "a1" false "c1" [] "approve" "rejected").
  reflexivity.
Defined.

(** X9.  On a loaded scope, one that has the seven buckets, a transition
    with one of the five moderation actions and one of the seven bucket
    names as previous status never throws, for every list of ids; but for
    [highlight] of a comment that is not highlighted in an article scope. *)
Theorem transition_succeeds (state : IModeratedCommentsState) (scope : string)
    (isCategory : bool) (ids : list string) (action previous : string)
    (buckets : ModerationState) :
  scopes isCategory state !! scope = Some buckets →
  dom buckets = bucketNames →
  action ∈ moderationActions →
  previous ∈ bucketNameList →
  (isCategory = false → action = "highlight" → previous = "highlighted") →
  ∃ state',
    moderatedCommentsReducer state
      (transition scope isCategory ids action previous) = Ok state'.
Proof.
  intros Hm Hdom Hact Hprev Hart. rewrite reducer_transition.
  destruct (forEach_allOk isCategory scope action previous ids (scopes isCategory state))
    as [m' ->]; [|simpl; eauto].
  apply callsOf_allOk; eauto using sevenBuckets_loaded.
Qed.

Lemma transition_succeeds_witness :
  ∃ state',
    moderatedCommentsReducer batchStore
      (transition "k" true ["c1"; "c9"] "highlight" "rejected") = Ok state'.
Proof.
  apply (transition_succeeds batchStore "k" true ["c1"; "c9"] "highlight" "rejected"
           (fromJS {| approved := ["c3"]; highlighted := []; rejected := ["c1"];
                      deferred := ["c2"]; flagged := []; batched := [];
                      automated := [] |})).
  - vm_compute. reflexivity.
  - apply fromJS_dom.
  - compute_done.
  - compute_done.
  - discriminate.
Defined.

(** X10.  In a store reached from the initial state, a transition with an
    action that is not one of the five moderation actions, and at least
    one id, throws a [TypeError] for every scope of either kind and every
    previous status: [ACTION_PLURAL] names no bucket ([undefined], or
    [tagged] for [tag]), and the store keeps its state. *)
Theorem unknown_action_throws (acts : list Action) (scope : string)
    (isCategory : bool) (id : string) (ids : list string) (action previous : string) :
  action ∉ moderationActions →
  moderatedCommentsReducer (run acts)
    (transition scope isCategory (id :: ids) action previous) = Throw TypeError ∧
  dispatch (run acts) (transition scope isCategory (id :: ids) action previous)
    = run acts.
Proof.
  intros Hact.
  assert (moderatedCommentsReducer (run acts)
            (transition scope isCategory (id :: ids) action previous)
          = Throw TypeError) as Hthrow.
  { rewrite reducer_transition, forEach_notOk; [done|].
    pose proof (sevenBuckets_not_tagged _ scope (run_sevenBuckets isCategory acts))
      as Htag.
    unfold moderationActions in Hact. rewrite !elem_of_cons, elem_of_nil in Hact.
    assert (String.eqb action "highlight" = false) as Hh
      by (apply String.eqb_neq; tauto).
    assert (String.eqb action "approve" = false) as Ha
      by (apply String.eqb_neq; tauto).
    assert (String.eqb action "defer" = false) as Hd
      by (apply String.eqb_neq; tauto).
    assert (String.eqb action "reject" = false) as Hr
      by (apply String.eqb_neq; tauto).
    assert (String.eqb action "reset" = false) as Hs
      by (apply String.eqb_neq; tauto).
    destruct isCategory; unfold callsOf, categoryCalls, articleCalls, ACTION_PLURAL;
      rewrite forallb_app, Hh, Ha, Hd, Hr, Hs; apply andb_false_iff; right;
      destruct (String.eqb action "tag"); cbn [forallb callOk]; try done;
      rewrite Htag; by rewrite bool_decide_eq_false_2 by (by intros []). }
  split; [done|]. unfold dispatch. by rewrite Hthrow.
Qed.

Lemma unknown_action_throws_witness :
  moderatedCommentsReducer (run [completeLoad "k" true noBuckets])
    (transition "k" true ["c1"] "tag" "batched") = Throw TypeError ∧
  dispatch (run [completeLoad "k" true noBuckets])
    (transition "k" true ["c1"] "tag" "batched")
    = run [completeLoad "k" true noBuckets].
Proof.
  apply (unknown_action_throws [completeLoad "k" true noBuckets] "k" true "c1" []
           "tag" "batched").
  compute_done.
Defined.

(** ** Transitions: what can leave and what can enter a bucket *)

Section Monotone.
Variable R : relation (list string).
Context `{!PreOrder R}.
Implicit Types (m : ScopeMap) (state : IModeratedCommentsState).

Lemma callsEffect_rel id name cs l :
  Forall (λ c, ∀ l', R (callEffect id c name l') l') cs →
  R (callsEffect id cs name l) l.
Proof.
  intros H. revert l. induction H as [|c cs Hc _ IH]; intros l.
  - reflexivity.
  - change (callsEffect id (c :: cs) name l)
      with (callsEffect id cs name (callEffect id c name l)).
    etrans; [apply IH|apply Hc].
Qed.

Lemma runCalls_rel scope id cs m m' :
  (∀ name, Forall (λ c, ∀ l, R (callEffect id c name l) l) cs) →
  runCalls scope id cs m = Ok m' →
  ∀ sc name, option_Forall2 R (mbucket m' sc name) (mbucket m sc name).
Proof.
  intros Hcs H sc name. rewrite (runCalls_Ok _ _ _ _ _ H).
  case_decide; [|reflexivity].
  destruct (mbucket m sc name); simpl; constructor. apply callsEffect_rel, Hcs.
Qed.

Lemma forEach_rel isCategory scope action previous ids m m' :
  (∀ id m0 m1, stepOf isCategory scope action previous m0 id = Ok m1 →
     ∀ sc name, option_Forall2 R (mbucket m1 sc name) (mbucket m0 sc name)) →
  forEach (stepOf isCategory scope action previous) ids m = Ok m' →
  ∀ sc name, option_Forall2 R (mbucket m' sc name) (mbucket m sc name).
Proof.
  intros Hstep. revert m. induction ids as [|id ids IH]; simpl; intros m H sc name.
  - injection H as <-. reflexivity.
  - destruct (stepOf _ _ _ _ m id) as [m1|] eqn:H1; simpl in H; [|done].
    etrans; [by apply IH|by eapply Hstep].
Qed.

Lemma dispatch_rel state isCategory scope ids action previous :
  (∀ id m0 m1, stepOf isCategory scope action previous m0 id = Ok m1 →
     ∀ sc name, option_Forall2 R (mbucket m1 sc name) (mbucket m0 sc name)) →
  ∀ c sc name,
    option_Forall2 R
      (bucket (dispatch state (transition scope isCategory ids action previous))
         c sc name)
      (bucket state c sc name).
Proof.
  intros Hstep c sc name. unfold dispatch. rewrite reducer_transition.
  destruct (forEach _ ids _) as [m|] eqn:Hm; simpl; [|reflexivity].
  rewrite bucket_withScopes. case_decide as Hc; [|reflexivity]. subst c.
  by eapply forEach_rel.
Qed.

End Monotone.

Lemma articleCalls_effects action previous :
  PushDeep ∉ articleCalls action previous →
  ∀ id name,
    Forall (λ c, ∀ l, callEffect id c name l `sublist_of` l)
      (articleCalls action previous).
Proof.
  intros Hdeep id name. unfold articleCalls, removalCalls in *.
  apply Forall_app. split.
  - destruct (shouldRemoveFromList previous action); repeat constructor.
    intros l. simpl. case_decide; [apply deleteComment_sublist|done].
  - repeat case_match; repeat constructor; try (by intros l; simpl).
    all: exfalso; apply Hdeep; rewrite elem_of_app, !elem_of_cons; auto.
Qed.

(** X11.  In an article scope a dispatched transition never puts an id
    into a bucket: for every state, list of ids, action and previous
    status, each bucket of the store afterwards is the bucket before with
    elements taken out at most. *)
Theorem article_buckets_never_grow (state : IModeratedCommentsState)
    (articleId : string) (ids : list string) (action previous : string)
    (c : bool) (sc name : string) :
  option_Forall2 sublist
    (bucket (dispatch state (transition articleId false ids action previous))
       c sc name)
    (bucket state c sc name).
Proof.
  apply (dispatch_rel sublist). intros id m0 m1 H.
  unfold stepOf in H. rewrite articleStep_calls in H.
  eapply (runCalls_rel sublist); [|exact H].
  apply articleCalls_effects. intros Hdeep.
  by rewrite runCalls_PushDeep in H.
Qed.

(** X12.  When the removal step is not due, [shouldRemoveFromList] false
    (previous status [batched] or [automated], [highlight] of a comment
    that is not highlighted, another action on a highlighted comment), a
    dispatched transition takes nothing out: every bucket of the store
    before is a prefix of the bucket afterwards. *)
Theorem transition_without_removal (state : IModeratedCommentsState)
    (scope : string) (isCategory : bool) (ids : list string)
    (action previous : string) (c : bool) (sc name : string) :
  shouldRemoveFromList previous action = false →
  option_Forall2 (flip prefix)
    (bucket (dispatch state (transition scope isCategory ids action previous))
       c sc name)
    (bucket state c sc name).
Proof.
  intros Hrem. apply (dispatch_rel (flip prefix)). intros id m0 m1 H.
  rewrite stepOf_calls in H.
  eapply (runCalls_rel (flip prefix)); [|exact H].
  intros name'.
  destruct (callsOf_split isCategory action previous) as (rest & -> & Hrest).
  unfold removalCalls. rewrite Hrem. simpl.
  eapply Forall_impl; [exact Hrest|]. intros call Hcall l.
  destruct call as [k|[k|]|k|]; simpl; try reflexivity.
  - by destruct (Hcall k).
  - case_decide; [|reflexivity]. by apply prefix_app_r.
Qed.

Lemma transition_without_removal_witness :
  option_Forall2 (flip prefix)
    (bucket (dispatch batchStore (transition "k" true ["c7"; "c8"] "approve" "batched"))
       true "k" "approved")
    (bucket batchStore true "k" "approved").
Proof.
  apply (transition_without_removal batchStore "k" true ["c7"; "c8"] "approve" "batched").
  reflexivity.
Defined.

(** X13.  In a category scope [approve], [reject] and [defer] append the
    ids to the bucket of the action in the order of the list, when the
    previous status names another bucket: after a transition that went
    through, [approved] (resp. [rejected], [deferred]) is the former list
    followed by the ids. *)
Theorem category_appends_in_order (state state' : IModeratedCommentsState)
    (category : string) (ids : list string) (action previous name : string) :
  (action, name) ∈ [("approve", "approved"); ("reject", "rejected");
                    ("defer", "deferred")] →
  name ≠ previous →
  moderatedCommentsReducer state
    (transition category true ids action previous) = Ok state' →
  bucket state' true category name =
  (λ l, l ++ ids) <$> bucket state true category name.
Proof.
  intros Hact Hname. rewrite reducer_transition.
  destruct (forEach _ ids _) as [m'|] eqn:Hm; simpl; [|done].
  intros [= <-]. unfold bucket. simpl in *. revert Hm. generalize (categories state).
  assert (∀ id l, callsEffect id (callsOf true action previous) name l = l ++ [id])
    as Heff.
  { intros id l. rewrite !elem_of_cons, elem_of_nil in Hact.
    destruct Hact as [[= -> ->]|[[= -> ->]|[[= -> ->]|[]]]];
      unfold callsOf, categoryCalls, removalCalls;
      simpl; destruct (shouldRemoveFromList _ _); unfold callsEffect; simpl;
      by rewrite ?decide_False by done. }
  induction ids as [|id ids IH]; simpl; intros m Hm.
  - injection Hm as <-. destruct (mbucket m category name); simpl; [|done].
    by rewrite app_nil_r.
  - destruct (categoryStep _ _ _ m id) as [m1|] eqn:H1; simpl in Hm; [|done].
    rewrite (IH _ Hm). rewrite categoryStep_calls in H1.
    rewrite (runCalls_Ok _ _ _ _ _ H1), decide_True by done.
    destruct (mbucket m category name); simpl; [|done].
    change (categoryCalls action previous) with (callsOf true action previous).
    by rewrite Heff, <- app_assoc.
Qed.

Lemma category_appends_in_order_witness :
  bucket (dispatch batchStore (transition "k" true ["c1"; "c9"] "approve" "rejected"))
    true "k" "approved" =
  (λ l, l ++ ["c1"; "c9"]) <$> bucket batchStore true "k" "approved".
Proof.
  apply (category_appends_in_order batchStore _ "k" ["c1"; "c9"] "approve" "rejected").
  - compute_done.
  - discriminate.
  - vm_compute. reflexivity.
Defined.

(** ** The removal updater *)

Lemma filter_all_ne (id : string) (l : list string) :
  id ∉ l → filter (λ x, x ≠ id) l = l.
Proof.
  induction l as [|y l IH]; intros H; [done|].
  apply not_elem_of_cons in H as [Hne Hl].
  rewrite filter_cons_True by done. by rewrite IH.
Qed.

(** X14.  The removal updater
    [moderated.delete(moderated.findIndex(item => item === commentId))]
    takes exactly one element out of every bucket that is not empty,
    whether the id is in it or not, and adds none: the result is a
    sublist, one shorter; an empty bucket stays empty. *)
Theorem deleteComment_takes_one (id : string) (l : list string) :
  length (deleteComment id l) = length l - 1 ∧
  deleteComment id l `sublist_of` l.
Proof.
  split; [|apply deleteComment_sublist].
  destruct (decide (id ∈ l)) as [Hin|Hout].
  - apply elem_of_split_first in Hin as (l1 & l2 & -> & Hl1).
    rewrite deleteComment_present by done. rewrite !length_app. simpl. lia.
  - rewrite deleteComment_absent by done.
    destruct l as [|y l'] using rev_ind; [done|].
    rewrite removelast_last, length_app. simpl. lia.
Qed.

(** X15.  On a bucket without duplicates that holds the id, the removal
    updater gives the bucket without the id, the order of the other ids
    kept. *)
Theorem deleteComment_NoDup (id : string) (l : list string) :
  NoDup l → id ∈ l →
  deleteComment id l = filter (λ x, x ≠ id) l ∧
  (id ∉ deleteComment id l) ∧ NoDup (deleteComment id l).
Proof.
  intros Hnd (l1 & l2 & -> & Hl1)%elem_of_split_first.
  rewrite deleteComment_present by done.
  apply NoDup_app in Hnd as (Hnd1 & Hdisj & Hnd2).
  apply NoDup_cons in Hnd2 as [Hl2 Hnd2].
  split; [|split].
  - rewrite filter_app, filter_cons_False by (by intros H; apply H).
    by rewrite !filter_all_ne.
  - rewrite elem_of_app. tauto.
  - apply NoDup_app. repeat split; [done| |done].
    intros x Hx Hx2. apply (Hdisj x Hx). by right.
Qed.

Lemma deleteComment_NoDup_witness :
  deleteComment "c2" ["c1"; "c2"; "c3"] = filter (λ x, x ≠ "c2") ["c1"; "c2"; "c3"] ∧
  ("c2" ∉ deleteComment "c2" ["c1"; "c2"; "c3"]) ∧
  NoDup (deleteComment "c2" ["c1"; "c2"; "c3"]).
Proof.
  apply (deleteComment_NoDup "c2" ["c1"; "c2"; "c3"]); compute_done.
Defined.

(** ** Samples for the single transitions *)

Lemma article_highlight_always_throws_witness :
  moderatedCommentsReducer (loaded false "a1" (sampleBuckets ["c1"; "c2"] [] [] []))
    (transition "a1" false ["c1"; "c2"] "highlight" "approved") = Throw TypeError.
Proof.
  apply (article_highlight_always_throws
           (loaded false "a1" (sampleBuckets ["c1"; "c2"] [] [] []))
           "a1" "c1" ["c2"] "approved").
  discriminate.
Defined.

Lemma category_highlight_appends_witness :
  let state' := dispatch batchStore (transition "k" true ["c3"] "highlight" "approved") in
  bucket state' true "k" "highlighted" =
    (λ l, l ++ ["c3"]) <$> bucket batchStore true "k" "highlighted" ∧
  bucket state' true "k" "approved" =
    (λ l, l ++ ["c3"]) <$> bucket batchStore true "k" "approved" ∧
  ∀ c sc name,
    (c, sc, name) ≠ (true, "k", "highlighted") →
    (c, sc, name) ≠ (true, "k", "approved") →
    bucket state' c sc name = bucket batchStore c sc name.
Proof.
  intros state'.
  apply (category_highlight_appends batchStore "k" "c3" "approved" state').
  - discriminate.
  - vm_compute. reflexivity.
Defined.

Lemma category_approve_rejected_witness :
  let state' := dispatch batchStore (transition "k" true ["c1"] "approve" "rejected") in
  bucket state' true "k" "rejected" =
    deleteComment "c1" <$> bucket batchStore true "k" "rejected" ∧
  bucket state' true "k" "approved" =
    (λ l, l ++ ["c1"]) <$> bucket batchStore true "k" "approved".
Proof.
  intros state'.
  apply (category_approve_rejected batchStore "k" "c1" state').
  vm_compute. reflexivity.
Defined.

(** ** The active buttons of the comment detail view *)

(** X19.  [getActiveButtons] on a comment: [defer] is active exactly for a
    deferred comment, and then alone; otherwise [approve] is active
    exactly for an accepted comment, [reject] exactly for a rejected one
    and [highlight] exactly for a highlighted one.  No other name is ever
    active, [reset] in particular, and no name is listed twice. *)
Theorem getActiveButtons_spec (comment : ICommentModel) :
  ∃ buttons,
    getActiveButtons (Some comment) = Some buttons ∧
    ("defer" ∈ buttons ↔ isDeferred comment = true) ∧
    ("approve" ∈ buttons ↔ isAccepted comment = Some true ∧ isDeferred comment = false) ∧
    ("reject" ∈ buttons ↔ isAccepted comment = Some false ∧ isDeferred comment = false) ∧
    ("highlight" ∈ buttons ↔ isHighlighted comment = true ∧ isDeferred comment = false) ∧
    (∀ a, a ∈ buttons → a ∈ ["approve"; "reject"; "highlight"; "defer"]) ∧
    NoDup buttons.
Proof.
  destruct comment as [[[|]|] [|] [|]]; eexists; (split; [reflexivity|]);
    (split; [compute_done|]); (split; [compute_done|]); (split; [compute_done|]);
    (split; [compute_done|]); (split; [apply Forall_forall|]); compute_done.
Qed.

(** X20.  The action that [moderateComment] carries out is never one
    whose button is active: pressing an active button gives [reset], any
    other action is carried out as it is.  Without a comment the
    computation throws. *)
Theorem commentAction_toggle (comment : ICommentModel) (action : string) :
  (∃ buttons r,
     getActiveButtons (Some comment) = Some buttons ∧
     commentAction (Some comment) action = Ok r ∧
     (action ∈ buttons → r = "reset") ∧
     (action ∉ buttons → r = action) ∧
     r ∉ buttons) ∧
  commentAction None action = Throw TypeError.
Proof.
  split; [|reflexivity].
  assert (∀ buttons : list string,
            "reset" ∉ buttons →
            let r := if bool_decide (action ∈ buttons) then "reset" else action in
            (action ∈ buttons → r = "reset") ∧
            (action ∉ buttons → r = action) ∧ r ∉ buttons) as Hr.
  { intros buttons Hreset r. unfold r. by case_bool_decide. }
  destruct comment as [[[|]|] [|] [|]]; eexists _, _;
    (split; [reflexivity|]); (split; [reflexivity|]); apply Hr; compute_done.
Qed.

(** ** The other ids of a bucket *)

(** X21.  A transition on one id leaves the other ids where they are,
    when the id is in the bucket of its previous status or no removal is
    due: every other id that was in a bucket of the store is in it after
    the dispatch, for either kind of scope and every action. *)
Theorem transition_keeps_other_ids (state : IModeratedCommentsState)
    (scope : string) (isCategory : bool) (id action previous : string)
    (c : bool) (sc name : string) (l : list string) (y : string) :
  (shouldRemoveFromList previous action = true →
   ∃ lp, bucket state isCategory scope previous = Some lp ∧ id ∈ lp) →
  y ≠ id →
  bucket state c sc name = Some l → y ∈ l →
  ∃ l',
    bucket (dispatch state (transition scope isCategory [id] action previous))
      c sc name = Some l' ∧ y ∈ l'.
Proof.
  intros Hpresent Hy Hl Hin.
  pose (it := {| itemId := id; itemAction := action; itemPrevious := previous |}).
  change (dispatch state (transition scope isCategory [id] action previous))
    with (dispatch state (transition scope isCategory [itemId it] (itemAction it)
                            (itemPrevious it))).
  rewrite dispatch_single, bucket_withScopes.
  case_decide as Hc; [|eauto]. subst c. rewrite stepMap_bucket.
  case_decide as Hsc; [|eauto]. subst sc.
  unfold bucket in Hl. rewrite Hl. simpl. eexists. split; [reflexivity|].
  destruct (item_effect isCategory scope (scopes isCategory state) it name l)
    as [_ Hkeep]; [|by apply Hkeep].
  simpl. intros Hrem ->. destruct (Hpresent Hrem) as (lp & Hlp & Hid).
  unfold bucket in Hlp. rewrite Hl in Hlp. by injection Hlp as ->.
Qed.

Lemma transition_keeps_other_ids_witness :
  ∃ l',
    bucket (dispatch batchStore (transition "k" true ["c3"] "reject" "approved"))
      true "k" "rejected" = Some l' ∧ "c1" ∈ l'.
Proof.
  apply (transition_keeps_other_ids batchStore "k" true "c3" "reject" "approved"
           true "k" "rejected" ["c1"] "c1").
  - intros _. exists ["c3"]. split; [vm_compute; reflexivity|compute_done].
  - discriminate.
  - vm_compute. reflexivity.
  - compute_done.
Defined.
